(** * Inventory system: a shallow embedding of [inventory_system.py]

    The Python module keeps an inventory in a [dict] from item names to
    integer quantities, mutates it through [add_item] and [remove_item],
    queries it through [get_qty] and [check_low_items], and persists it as
    JSON through [save_data] and [load_data].

    Python strings are sequences of code points, a [dict] is an association
    list in insertion order with one entry per key, integers are unbounded
    ([Z]).  Functions that mutate their [data] argument return the final
    dictionary next to their result; log records are collected in the order
    they are emitted. *)

From Stdlib Require Import ZArith NArith List Bool Lia String Ascii.
From Stdlib Require DecimalFacts DecimalPos DecimalN.
Import ListNotations.

Set Implicit Arguments.
Set Warnings "-register-all".

(** ** Python strings *)

Abbreviation codepoint := N (only parsing).
Definition str := list codepoint.

(** A literal: every character of the Rocq string is one code point. *)
Definition str_of (s : string) : str := map N_of_ascii (list_ascii_of_string s).

Fixpoint str_eqb (a b : str) : bool :=
  match a, b with
  | [], [] => true
  | x :: a', y :: b' => N.eqb x y && str_eqb a' b'
  | _, _ => false
  end.

(** ** Python values, as far as the program handles them.

    A float is kept as the literal it was read from; no arithmetic on floats
    is modelled. *)
Inductive value : Type :=
| VNone
| VBool (b : bool)
| VInt (z : Z)
| VFloat (lit : str)
| VStr (s : str)
| VList (l : list value)
| VDict (d : list (str * value)).

(** [isinstance(v, str)], with the string when it holds. *)
Definition as_str (v : value) : option str :=
  match v with VStr s => Some s | _ => None end.

(** [isinstance(v, int)], with the integer when it holds; [bool] is a
    subclass of [int] with [True == 1] and [False == 0]. *)
Definition as_int (v : value) : option Z :=
  match v with
  | VInt z => Some z
  | VBool b => Some (if b then 1%Z else 0%Z)
  | _ => None
  end.

Definition isinstance_str (v : value) : bool :=
  match as_str v with Some _ => true | None => false end.

Definition isinstance_int (v : value) : bool :=
  match as_int v with Some _ => true | None => false end.

(** ** Exceptions and results *)

Inductive exn : Type :=
| KeyError
| TypeError
| FileNotFoundError
| OtherOSError
| UnicodeDecodeError
| UnicodeEncodeError
| JSONDecodeError
| RecursionError.

Inductive res (A : Type) : Type :=
| Return (a : A)
| Raise (e : exn).
Arguments Return {A} a.
Arguments Raise {A} e.

(** ** Dictionaries with string keys, in insertion order *)

Module Dict.
Section Ops.
Variable V : Type.

Definition t := list (str * V).

(** [d.get(k)] *)
Fixpoint get (d : t) (k : str) : option V :=
  match d with
  | [] => None
  | (k', v) :: d' => if str_eqb k' k then Some v else get d' k
  end.

(** [d.get(k, dflt)] *)
Definition get_default (d : t) (k : str) (dflt : V) : V :=
  match get d k with Some v => v | None => dflt end.

(** [d[k]] *)
Definition getitem (d : t) (k : str) : res V :=
  match get d k with Some v => Return v | None => Raise KeyError end.

(** [d[k] = v]: an existing key keeps its position, a new key goes last. *)
Fixpoint set (d : t) (k : str) (v : V) : t :=
  match d with
  | [] => [(k, v)]
  | (k', v') :: d' =>
      if str_eqb k' k then (k', v) :: d' else (k', v') :: set d' k v
  end.

(** [del d[k]] on a present key. *)
Fixpoint del (d : t) (k : str) : t :=
  match d with
  | [] => []
  | (k', v') :: d' => if str_eqb k' k then d' else (k', v') :: del d' k
  end.

Definition keys (d : t) : list str := map fst d.

(** [dict(pairs)] *)
Definition of_pairs (pairs : list (str * V)) : t :=
  fold_left (fun d kv => set d (fst kv) (snd kv)) pairs [].

(** One entry per key. *)
Definition wf (d : t) : Prop := NoDup (keys d).
End Ops.
End Dict.

Definition inventory := Dict.t Z.

(** ** Logging *)

Inductive level : Type := INFO | WARNING | ERROR.

Inductive message : Type :=
| InvalidTypes
| EmptyName
| Added (qty : value) (item : str)
| Removed (qty : Z) (item : str) (stock : Z)
| RemovedAll (item : str)
| NotInStock (item : str)
| Loaded (file : str)
| FileNotFound (file : str)
| DecodeFailed (file : str)
| Saved (file : str).

Definition record := (level * message)%type.

(** ** What a call leaves behind: its result, the dictionary it was given
    (as mutated), and the records it logged. *)
Record outcome (A : Type) : Type := Outcome {
  result : res A;
  store : inventory;
  logged : list record
}.
Arguments Outcome {A} _ _ _.

(** ** The inventory operations *)

Module Inventory.
Open Scope Z_scope.

Definition add_item (data : inventory) (item qty : value) : outcome unit :=
  match as_str item, as_int qty with
  | Some name, Some n =>
      match name with
      | [] => Outcome (Return tt) data [(WARNING, EmptyName)]
      | _ :: _ =>
          Outcome (Return tt)
                  (Dict.set data name (Dict.get_default data name 0 + n))
                  [(INFO, Added qty name)]
      end
  | _, _ => Outcome (Return tt) data [(ERROR, InvalidTypes)]
  end.

Definition remove_item (data : inventory) (item : str) (qty : Z)
  : outcome unit :=
  match Dict.getitem data item with
  | Return stock =>
      if stock >? qty then
        let data' := Dict.set data item (stock - qty) in
        Outcome (Return tt) data'
                [(INFO, Removed qty item (Dict.get_default data' item 0))]
      else
        Outcome (Return tt) (Dict.del data item) [(INFO, RemovedAll item)]
  | Raise KeyError =>
      Outcome (Return tt) data [(WARNING, NotInStock item)]
  | Raise e => Outcome (Raise e) data []
  end.

Definition get_qty (data : inventory) (item : str) : outcome Z :=
  Outcome (Return (Dict.get_default data item 0)) data [].

Definition check_low_items (data : inventory) (threshold : Z)
  : outcome (list str) :=
  Outcome
    (Return (map fst (filter (fun kv => snd kv <? threshold) data)))
    data [].

Definition default_threshold : Z := 5.

(** The data-model invariant: every stored quantity is strictly
    positive. *)
Definition positive_stock (data : inventory) : Prop :=
  Forall (fun kv => 0 < snd kv) data.

(** The items of the demonstration in [main]. *)
Definition apple : str := str_of "apple".
Definition banana : str := str_of "banana".
Definition orange : str := str_of "orange".

(** The items the specification asks of a low-stock query: the keys, in
    iteration order, whose quantity is strictly below the threshold. *)
Definition low_stock_spec (data : inventory) (threshold : Z) : list str :=
  filter (fun k => Dict.get_default data k 0 <? threshold) (Dict.keys data).
End Inventory.

(** ** Text files: UTF-8 and newline translation

    [open(file, mode, encoding="utf-8")] reads and writes text; the file
    itself holds bytes. *)

Module Utf8.
Open Scope N_scope.

Definition in_range (lo hi b : N) : bool := (lo <=? b) && (b <=? hi).
Definition is_cont (b : N) : bool := in_range 0x80 0xBF b.

(** Strict decoding of well-formed sequences only: no overlong forms, no
    surrogates, nothing above U+10FFFF. *)
Fixpoint decode_codes (bs : list N) : option str :=
  match bs with
  | [] => Some []
  | b0 :: r0 =>
      if b0 <? 0x80 then option_map (cons b0) (decode_codes r0)
      else if in_range 0xC2 0xDF b0 then
        match r0 with
        | b1 :: r1 =>
            if is_cont b1
            then option_map (cons ((b0 - 0xC0) * 64 + (b1 - 0x80)))
                            (decode_codes r1)
            else None
        | _ => None
        end
      else if in_range 0xE0 0xEF b0 then
        match r0 with
        | b1 :: b2 :: r2 =>
            if in_range (if b0 =? 0xE0 then 0xA0 else 0x80)
                        (if b0 =? 0xED then 0x9F else 0xBF) b1
               && is_cont b2
            then option_map
                   (cons ((b0 - 0xE0) * 4096 + (b1 - 0x80) * 64 + (b2 - 0x80)))
                   (decode_codes r2)
            else None
        | _ => None
        end
      else if in_range 0xF0 0xF4 b0 then
        match r0 with
        | b1 :: b2 :: b3 :: r3 =>
            if in_range (if b0 =? 0xF0 then 0x90 else 0x80)
                        (if b0 =? 0xF4 then 0x8F else 0xBF) b1
               && is_cont b2 && is_cont b3
            then option_map
                   (cons ((b0 - 0xF0) * 262144 + (b1 - 0x80) * 4096
                          + (b2 - 0x80) * 64 + (b3 - 0x80)))
                   (decode_codes r3)
            else None
        | _ => None
        end
      else None
  end.

Definition decode (bs : list Byte.byte) : option str :=
  decode_codes (map Byte.to_N bs).

Definition is_surrogate (c : codepoint) : bool := in_range 0xD800 0xDFFF c.

Definition encode_char (c : codepoint) : option (list N) :=
  if c <? 0x80 then Some [c]
  else if c <? 0x800 then Some [0xC0 + c / 64; 0x80 + c mod 64]
  else if is_surrogate c then None
  else if c <? 0x10000 then
    Some [0xE0 + c / 4096; 0x80 + c / 64 mod 64; 0x80 + c mod 64]
  else
    Some [0xF0 + c / 262144; 0x80 + c / 4096 mod 64;
          0x80 + c / 64 mod 64; 0x80 + c mod 64].

Fixpoint encode_codes (s : str) : option (list N) :=
  match s with
  | [] => Some []
  | c :: s' =>
      match encode_char c, encode_codes s' with
      | Some bs, Some bs' => Some (bs ++ bs')
      | _, _ => None
      end
  end.

Definition byte_of (n : N) : Byte.byte :=
  match Byte.of_N n with Some b => b | None => Byte.x00 end.

Definition encode (s : str) : option (list Byte.byte) :=
  option_map (map byte_of) (encode_codes s).
End Utf8.

Module TextIO.
Open Scope N_scope.

(** Reading with the default [newline=None]: [\r\n] and [\r] become
    [\n]. *)
Fixpoint universal_newlines (s : str) : str :=
  match s with
  | [] => []
  | c :: r =>
      if c =? 13 then
        10 :: match r with
              | c' :: r' =>
                  if c' =? 10 then universal_newlines r'
                  else universal_newlines r
              | [] => []
              end
      else c :: universal_newlines r
  end.

(** A path names nothing, a regular file, or something [open] refuses
    with an [OSError] other than [FileNotFoundError] (a directory, a file
    without permission). *)
Inductive node : Type :=
| Regular (content : list Byte.byte)
| Unopenable.

Definition filesystem := str -> option node.

Definition empty_fs : filesystem := fun _ => None.

Definition write_file (fs : filesystem) (path : str) (content : list Byte.byte)
  : filesystem :=
  fun p => if str_eqb p path then Some (Regular content) else fs p.

(** [open(path, "r", encoding="utf-8")] followed by [read()]. *)
Definition read_text (fs : filesystem) (path : str) : res str :=
  match fs path with
  | None => Raise FileNotFoundError
  | Some Unopenable => Raise OtherOSError
  | Some (Regular content) =>
      match Utf8.decode content with
      | Some text => Return (universal_newlines text)
      | None => Raise UnicodeDecodeError
      end
  end.

(** [open(path, "w", encoding="utf-8")]: the file is created or
    truncated; the line separator of the platform is [\n]. *)
Definition open_w (fs : filesystem) (path : str) : res filesystem :=
  match fs path with
  | Some Unopenable => Raise OtherOSError
  | _ => Return (write_file fs path [])
  end.

(** [f.write(text)] on a file just opened for writing. *)
Definition write_text (fs : filesystem) (path : str) (text : str)
  : res filesystem :=
  match Utf8.encode text with
  | Some bytes => Return (write_file fs path bytes)
  | None => Raise UnicodeEncodeError
  end.

(** Characters that a text file stores as themselves: ASCII, and no
    carriage return. *)
Definition plain_ascii (c : N) : Prop := c < 128 /\ c <> 13.
End TextIO.

(** ** The [json] module, as [save_data] and [load_data] use it

    [dumps] is [json.dump(data, f, indent=4)] on a dictionary from strings
    to integers (the encoder escapes everything outside printable ASCII);
    [loads] is [json.load], the full strict decoder. *)

Module Json.
Open Scope N_scope.

Abbreviation QUOTE := 34 (only parsing).
Abbreviation BACKSLASH := 92 (only parsing).
Abbreviation LOWER_U := 117 (only parsing).
Abbreviation SPACE := 32 (only parsing).
Abbreviation NEWLINE := 10 (only parsing).
Abbreviation COMMA := 44 (only parsing).
Abbreviation COLON := 58 (only parsing).
Abbreviation MINUS := 45 (only parsing).
Abbreviation ZERO := 48 (only parsing).
Abbreviation LBRACE := 123 (only parsing).
Abbreviation RBRACE := 125 (only parsing).
Abbreviation LBRACKET := 91 (only parsing).
Abbreviation RBRACKET := 93 (only parsing).

(** *** Encoder *)

Definition hex_digit (d : N) : codepoint :=
  if d <? 10 then 48 + d else 87 + d.

(** [format(n, "04x")] for [n < 0x10000]. *)
Definition hex4 (n : N) : str :=
  [hex_digit (n / 4096 mod 16); hex_digit (n / 256 mod 16);
   hex_digit (n / 16 mod 16); hex_digit (n mod 16)].

Definition unicode_escape (n : N) : str := BACKSLASH :: LOWER_U :: hex4 n.

(** The replacement of one character by [encode_basestring_ascii]. *)
Definition escape_char (c : codepoint) : str :=
  if c =? BACKSLASH then [BACKSLASH; BACKSLASH]
  else if c =? QUOTE then [BACKSLASH; QUOTE]
  else if c =? 8 then [BACKSLASH; 98]
  else if c =? 12 then [BACKSLASH; 102]
  else if c =? 10 then [BACKSLASH; 110]
  else if c =? 13 then [BACKSLASH; 114]
  else if c =? 9 then [BACKSLASH; 116]
  else if (32 <=? c) && (c <=? 126) then [c]
  else if c <? 0x10000 then unicode_escape c
  else
    let n := c - 0x10000 in
    unicode_escape (N.lor 0xD800 (N.land (N.shiftr n 10) 0x3FF))
    ++ unicode_escape (N.lor 0xDC00 (N.land n 0x3FF)).

Definition encode_basestring_ascii (s : str) : str :=
  QUOTE :: flat_map escape_char s ++ [QUOTE].

Fixpoint uint_digits (d : Decimal.uint) : str :=
  match d with
  | Decimal.Nil => []
  | Decimal.D0 d' => 48 :: uint_digits d'
  | Decimal.D1 d' => 49 :: uint_digits d'
  | Decimal.D2 d' => 50 :: uint_digits d'
  | Decimal.D3 d' => 51 :: uint_digits d'
  | Decimal.D4 d' => 52 :: uint_digits d'
  | Decimal.D5 d' => 53 :: uint_digits d'
  | Decimal.D6 d' => 54 :: uint_digits d'
  | Decimal.D7 d' => 55 :: uint_digits d'
  | Decimal.D8 d' => 56 :: uint_digits d'
  | Decimal.D9 d' => 57 :: uint_digits d'
  end.

(** [int.__repr__] *)
Definition int_repr (z : Z) : str :=
  (if (z <? 0)%Z then [MINUS] else []) ++ uint_digits (N.to_uint (Z.abs_N z)).

Fixpoint join (sep : str) (parts : list str) : str :=
  match parts with
  | [] => []
  | [p] => p
  | p :: ps => p ++ sep ++ join sep ps
  end.

Definition key_separator : str := [COLON; SPACE].
Definition item_separator : str := [COMMA].

Definition encode_item (kv : str * Z) : str :=
  encode_basestring_ascii (fst kv) ++ key_separator ++ int_repr (snd kv).

(** [_iterencode_dict] at nesting level 0, all chunks concatenated. *)
Definition dumps (data : inventory) (indent : nat) : str :=
  match data with
  | [] => [LBRACE; RBRACE]
  | _ =>
      let newline_indent := NEWLINE :: repeat SPACE indent in
      [LBRACE] ++ newline_indent
      ++ join (item_separator ++ newline_indent) (map encode_item data)
      ++ [NEWLINE] ++ [RBRACE]
  end.

(** *** Decoder *)

Inductive parsed (A : Type) : Type :=
| Parsed (a : A) (rest : str)
| Invalid
| Exhausted.
Arguments Parsed {A} a rest.
Arguments Invalid {A}.
Arguments Exhausted {A}.

Definition is_ws (c : codepoint) : bool :=
  (c =? 32) || (c =? 9) || (c =? 10) || (c =? 13).

Fixpoint skip_ws (s : str) : str :=
  match s with
  | c :: s' => if is_ws c then skip_ws s' else s
  | [] => []
  end.

Definition hex_value (c : codepoint) : option N :=
  if (48 <=? c) && (c <=? 57) then Some (c - 48)
  else if (97 <=? c) && (c <=? 102) then Some (c - 87)
  else if (65 <=? c) && (c <=? 70) then Some (c - 55)
  else None.

Definition hex4_value (a b c d : codepoint) : option N :=
  match hex_value a, hex_value b, hex_value c, hex_value d with
  | Some x, Some y, Some z, Some w => Some (((x * 16 + y) * 16 + z) * 16 + w)
  | _, _, _, _ => None
  end.

Definition backslash_escape (c : codepoint) : option codepoint :=
  if c =? QUOTE then Some QUOTE
  else if c =? BACKSLASH then Some BACKSLASH
  else if c =? 47 then Some 47
  else if c =? 98 then Some 8
  else if c =? 102 then Some 12
  else if c =? 110 then Some 10
  else if c =? 114 then Some 13
  else if c =? 116 then Some 9
  else None.

Definition is_high_surrogate (c : N) : bool := (0xD800 <=? c) && (c <=? 0xDBFF).
Definition is_low_surrogate (c : N) : bool := (0xDC00 <=? c) && (c <=? 0xDFFF).

Definition join_surrogates (hi lo : N) : codepoint :=
  0x10000 + N.lor (N.shiftl (hi - 0xD800) 10) (lo - 0xDC00).

Definition push (c : codepoint) (r : option (str * str)) : option (str * str) :=
  match r with Some (s, rest) => Some (c :: s, rest) | None => None end.

(** [scanstring], started after the opening quote: the decoded string
    and what follows the closing quote. *)
Fixpoint scanstring (s : str) : option (str * str) :=
  match s with
  | [] => None
  | c :: r =>
      if c =? QUOTE then Some ([], r)
      else if c =? BACKSLASH then
        match r with
        | [] => None
        | e :: r1 =>
            if e =? LOWER_U then
              match r1 with
              | h1 :: h2 :: h3 :: h4 :: r5 =>
                  match hex4_value h1 h2 h3 h4 with
                  | None => None
                  | Some uni =>
                      if is_high_surrogate uni then
                        match r5 with
                        | b :: u :: g1 :: g2 :: g3 :: g4 :: r11 =>
                            if (b =? BACKSLASH) && (u =? LOWER_U) then
                              match hex4_value g1 g2 g3 g4 with
                              | None => None
                              | Some uni2 =>
                                  if is_low_surrogate uni2
                                  then push (join_surrogates uni uni2)
                                            (scanstring r11)
                                  else push uni (scanstring r5)
                              end
                            else push uni (scanstring r5)
                        | _ => push uni (scanstring r5)
                        end
                      else push uni (scanstring r5)
                  end
              | _ => None
              end
            else
              match backslash_escape e with
              | Some ch => push ch (scanstring r1)
              | None => None
              end
        end
      else if c <=? 0x1F then None
      else push c (scanstring r)
  end.

Definition is_digit (c : codepoint) : bool := (48 <=? c) && (c <=? 57).

Fixpoint span_digits (s : str) : str * str :=
  match s with
  | c :: s' =>
      if is_digit c
      then let (ds, rest) := span_digits s' in (c :: ds, rest)
      else ([], s)
  | [] => ([], [])
  end.

(** The three groups of the number pattern: an integer part (an optional
    minus sign, then either 0 or a non-zero digit followed by digits), an
    optional fraction (a dot and at least one digit), an optional exponent
    (e or E, an optional sign, at least one digit). *)
Definition match_integer (s : str) : option (str * str) :=
  let (sign, s1) :=
    match s with
    | c :: r => if c =? MINUS then ([c], r) else ([], s)
    | [] => ([], s)
    end in
  match s1 with
  | c :: r =>
      if c =? ZERO then Some (sign ++ [c], r)
      else if is_digit c
      then let (ds, rest) := span_digits r in Some (sign ++ c :: ds, rest)
      else None
  | [] => None
  end.

Definition match_frac (s : str) : option (str * str) :=
  match s with
  | c :: r =>
      if c =? 46 then
        match span_digits r with
        | ([], _) => None
        | (ds, rest) => Some (c :: ds, rest)
        end
      else None
  | [] => None
  end.

Definition match_exp (s : str) : option (str * str) :=
  match s with
  | c :: r =>
      if (c =? 101) || (c =? 69) then
        let (sign, r1) :=
          match r with
          | x :: r' => if (x =? 43) || (x =? 45) then ([x], r') else ([], r)
          | [] => ([], r)
          end in
        match span_digits r1 with
        | ([], _) => None
        | (ds, rest) => Some (c :: sign ++ ds, rest)
        end
      else None
  | [] => None
  end.

(** [int(lexeme)] on a lexeme of the integer group. *)
Definition digits_value (ds : str) : N :=
  fold_left (fun acc c => acc * 10 + (c - 48)) ds 0.

Definition parse_int (lexeme : str) : Z :=
  match lexeme with
  | c :: ds => if c =? MINUS then (- Z.of_N (digits_value ds))%Z
               else Z.of_N (digits_value lexeme)
  | [] => 0%Z
  end.

Definition match_number (s : str) : option (value * str) :=
  match match_integer s with
  | None => None
  | Some (integer, r1) =>
      let (frac, r2) :=
        match match_frac r1 with Some (f, r) => (f, r) | None => ([], r1) end in
      let (exp, r3) :=
        match match_exp r2 with Some (e, r) => (e, r) | None => ([], r2) end in
      match frac, exp with
      | [], [] => Some (VInt (parse_int integer), r3)
      | _, _ => Some (VFloat (integer ++ frac ++ exp), r3)
      end
  end.

(** [s.startswith(prefix)], with what follows the prefix. *)
Fixpoint strip_prefix (prefix s : str) : option str :=
  match prefix, s with
  | [], _ => Some s
  | p :: prefix', c :: s' => if p =? c then strip_prefix prefix' s' else None
  | _ :: _, [] => None
  end.

Definition lit_null : str := [110; 117; 108; 108].
Definition lit_true : str := [116; 114; 117; 101].
Definition lit_false : str := [102; 97; 108; 115; 101].
Definition lit_NaN : str := [78; 97; 78].
Definition lit_Infinity : str := [73; 110; 102; 105; 110; 105; 116; 121].
Definition lit_neg_Infinity : str := MINUS :: lit_Infinity.

Definition scan_constant (s : str) : option (value * str) :=
  match strip_prefix lit_null s with
  | Some r => Some (VNone, r)
  | None =>
  match strip_prefix lit_true s with
  | Some r => Some (VBool true, r)
  | None =>
  match strip_prefix lit_false s with
  | Some r => Some (VBool false, r)
  | None =>
  match match_number s with
  | Some vr => Some vr
  | None =>
  match strip_prefix lit_NaN s with
  | Some r => Some (VFloat lit_NaN, r)
  | None =>
  match strip_prefix lit_Infinity s with
  | Some r => Some (VFloat lit_Infinity, r)
  | None =>
  match strip_prefix lit_neg_Infinity s with
  | Some r => Some (VFloat lit_neg_Infinity, r)
  | None => None
  end end end end end end end.

(** [scan_once], with [JSONObject] and [JSONArray] as its loops.  The
    recursion is bounded by [fuel]; [loads] gives it twice the length of the
    text. *)
Fixpoint scan_once (fuel : nat) (s : str) : parsed value :=
  match fuel with
  | O => Exhausted
  | S fuel' =>
      match s with
      | [] => Invalid
      | c :: r =>
          if c =? QUOTE then
            match scanstring r with
            | Some (text, rest) => Parsed (VStr text) rest
            | None => Invalid
            end
          else if c =? LBRACE then
            match skip_ws r with
            | c1 :: r1 =>
                if c1 =? RBRACE then Parsed (VDict []) r1
                else if c1 =? QUOTE then object_loop fuel' r1 []
                else Invalid
            | [] => Invalid
            end
          else if c =? LBRACKET then
            match skip_ws r with
            | c1 :: r1 =>
                if c1 =? RBRACKET then Parsed (VList []) r1
                else array_loop fuel' (c1 :: r1) []
            | [] => Invalid
            end
          else
            match scan_constant s with
            | Some (v, rest) => Parsed v rest
            | None => Invalid
            end
      end
  end

(** One round of the object loop, started after the opening quote of a
    key. *)
with object_loop (fuel : nat) (s : str) (pairs : list (str * value))
  : parsed value :=
  match fuel with
  | O => Exhausted
  | S fuel' =>
      match scanstring s with
      | None => Invalid
      | Some (key, s1) =>
          match skip_ws s1 with
          | c :: s2 =>
              if c =? COLON then
                match scan_once fuel' (skip_ws s2) with
                | Parsed v s3 =>
                    let pairs' := pairs ++ [(key, v)] in
                    match skip_ws s3 with
                    | c3 :: s4 =>
                        if c3 =? RBRACE
                        then Parsed (VDict (Dict.of_pairs pairs')) s4
                        else if c3 =? COMMA then
                          match skip_ws s4 with
                          | c5 :: s5 =>
                              if c5 =? QUOTE
                              then object_loop fuel' s5 pairs'
                              else Invalid
                          | [] => Invalid
                          end
                        else Invalid
                    | [] => Invalid
                    end
                | Invalid => Invalid
                | Exhausted => Exhausted
                end
              else Invalid
          | [] => Invalid
          end
      end
  end

(** One round of the array loop, started at a value. *)
with array_loop (fuel : nat) (s : str) (values : list value) : parsed value :=
  match fuel with
  | O => Exhausted
  | S fuel' =>
      match scan_once fuel' s with
      | Parsed v s1 =>
          let values' := values ++ [v] in
          match skip_ws s1 with
          | c :: s2 =>
              if c =? RBRACKET then Parsed (VList values') s2
              else if c =? COMMA then array_loop fuel' (skip_ws s2) values'
              else Invalid
          | [] => Invalid
          end
      | Invalid => Invalid
      | Exhausted => Exhausted
      end
  end.

(** A string of code points in which no high surrogate is directly
    followed by a low surrogate. *)
Definition is_codepoint (c : N) : bool := c <? 0x110000.

Fixpoint no_surrogate_pair (s : str) : bool :=
  match s with
  | c :: s' =>
      match s' with
      | c' :: _ => negb (is_high_surrogate c && is_low_surrogate c')
      | [] => true
      end && no_surrogate_pair s'
  | [] => true
  end.

Definition plain_key (s : str) : bool :=
  forallb is_codepoint s && no_surrogate_pair s.

(** What [loads] does: it returns a value, raises [JSONDecodeError], or
    reaches the bound of the recursion. *)
Inductive decoded : Type :=
| Value (v : value)
| DecodeError
| TooDeep.

(** [s.startswith("\ufeff")] *)
Definition starts_with_bom (s : str) : bool :=
  match s with
  | c :: _ => c =? 0xFEFF
  | [] => false
  end.

(** [json.loads(s)] for a [str]. *)
Definition loads (s : str) : decoded :=
  if starts_with_bom s then DecodeError
  else
    match scan_once (S (2 * List.length s)) (skip_ws s) with
    | Parsed v rest =>
        match skip_ws rest with
        | [] => Value v
        | _ :: _ => DecodeError
        end
    | Invalid => DecodeError
    | Exhausted => TooDeep
    end.

(** *** Notions used to state the properties of the encoder and the decoder *)

(** The two halves of the escape of a character outside the basic plane. *)
Definition high_half (c : codepoint) : N :=
  N.lor 0xD800 (N.land (N.shiftr (c - 0x10000) 10) 0x3FF).
Definition low_half (c : codepoint) : N :=
  N.lor 0xDC00 (N.land (c - 0x10000) 0x3FF).

(** What follows an escaped high surrogate does not read as an escaped low
    surrogate. *)
Definition no_low_escape (r : str) : Prop :=
  forall g1 g2 g3 g4 r',
    r = 92 :: 117 :: g1 :: g2 :: g3 :: g4 :: r' ->
    exists u, hex4_value g1 g2 g3 g4 = Some u /\ is_low_surrogate u = false.

(** The shapes of [escape_char]. *)
Inductive escape_shape (c : N) : str -> Prop :=
| shape_simple e :
    e <> 117 -> backslash_escape e = Some c -> escape_shape c [92; e]
| shape_plain :
    c <> 34 -> c <> 92 -> 0x1F < c -> c < 127 -> escape_shape c [c]
| shape_unicode h1 h2 h3 h4 :
    hex4_value h1 h2 h3 h4 = Some c -> c < 0x10000 ->
    escape_shape c [92; 117; h1; h2; h3; h4]
| shape_pair h1 h2 h3 h4 g1 g2 g3 g4 hi lo :
    hex4_value h1 h2 h3 h4 = Some hi -> is_high_surrogate hi = true ->
    hex4_value g1 g2 g3 g4 = Some lo -> is_low_surrogate lo = true ->
    join_surrogates hi lo = c -> 0x10000 <= c ->
    escape_shape c [92; 117; h1; h2; h3; h4; 92; 117; g1; g2; g3; g4].

(** What may follow a number for the number to end there. *)
Definition ends_number (rest : str) : Prop :=
  match rest with
  | [] => True
  | c :: _ => is_digit c = false /\ c <> 46 /\ c <> 101 /\ c <> 69
  end.

(** An encoded item after its opening quote. *)
Definition item_tail (kv : str * Z) : str :=
  flat_map escape_char (fst kv) ++ 34 :: 58 :: 32 :: int_repr (snd kv).

(** The separator and the items that follow an item. *)
Definition more (indent : nat) (l : list (str * Z)) : str :=
  match l with
  | [] => []
  | _ => (44 :: 10 :: repeat 32 indent)
         ++ join (44 :: 10 :: repeat 32 indent) (map encode_item l)
  end.

(** The entry of the decoded dictionary for an item. *)
Definition entry (kv : str * Z) : str * value := (fst kv, VInt (snd kv)).

(** A result of the decoder that leaves strictly less ([strict]) or no more
    than it was given, and is never [Exhausted]. *)
Definition consumes (strict : bool) (s : str) (p : parsed value) : Prop :=
  match p with
  | Parsed _ r =>
      if strict then (List.length r < List.length s)%nat
      else (List.length r <= List.length s)%nat
  | Invalid => True
  | Exhausted => False
  end.
End Json.

(** ** Persistence *)

Module Persist.
Import TextIO.

(** What a call that touches files leaves behind. *)
Record io_outcome (A : Type) : Type := IO {
  io_result : res A;
  files : filesystem;
  io_logged : list record
}.
Arguments IO {A} _ _ _.

Definition default_file : str := str_of "inventory.json".

(** [json.load(f)] on the file just opened. *)
Definition json_load (fs : filesystem) (file : str) : res value :=
  match read_text fs file with
  | Return text =>
      match Json.loads text with
      | Json.Value v => Return v
      | Json.DecodeError => Raise JSONDecodeError
      | Json.TooDeep => Raise RecursionError
      end
  | Raise e => Raise e
  end.

Definition load_data (fs : filesystem) (file : str) : io_outcome value :=
  match json_load fs file with
  | Return loaded_data => IO (Return loaded_data) fs [(INFO, Loaded file)]
  | Raise FileNotFoundError =>
      IO (Return (VDict [])) fs [(WARNING, FileNotFound file)]
  | Raise JSONDecodeError =>
      IO (Return (VDict [])) fs [(ERROR, DecodeFailed file)]
  | Raise e => IO (Raise e) fs []
  end.

Definition save_data (fs : filesystem) (data : inventory) (file : str)
  : io_outcome unit :=
  match open_w fs file with
  | Raise e => IO (Raise e) fs []
  | Return fs1 =>
      match write_text fs1 file (Json.dumps data 4) with
      | Raise e => IO (Raise e) fs1 []
      | Return fs2 => IO (Return tt) fs2 [(INFO, Saved file)]
      end
  end.

(** The inventory as the Python value [save_data] was given. *)
Definition value_of_inventory (data : inventory) : value :=
  VDict (map Json.entry data).

(** The content of a file is a JSON document: it is UTF-8 text that the
    decoder accepts. *)
Definition valid_json (content : list Byte.byte) : Prop :=
  exists text v,
    Utf8.decode content = Some text /\
    Json.loads (universal_newlines text) = Json.Value v.
End Persist.

(** ** Notions used to state further properties *)

Module Notions.
Open Scope N_scope.

(** The entries of the items other than [item], in iteration order. *)
Definition others (item : str) (data : inventory) : inventory :=
  filter (fun kv => negb (str_eqb (fst kv) item)) data.

(** A string as the decoder reads it back from its escaped form: a high
    surrogate directly followed by a low surrogate becomes the character
    the pair encodes. *)
Fixpoint join_pairs (s : str) : str :=
  match s with
  | [] => []
  | c :: r =>
      match r with
      | c' :: r' =>
          if Json.is_high_surrogate c && Json.is_low_surrogate c'
          then Json.join_surrogates c c' :: join_pairs r'
          else c :: join_pairs r
      | [] => [c]
      end
  end.

(** The entry [json.load] builds for an item that [json.dump] wrote. *)
Definition reloaded_entry (kv : str * Z) : str * value :=
  (join_pairs (fst kv), VInt (snd kv)).

(** The dictionary that [json.load] builds from what [json.dump] wrote for
    an inventory. *)
Definition reloaded (data : inventory) : value :=
  VDict (Dict.of_pairs (map reloaded_entry data)).
End Notions.

(** ** The console report *)

Module Report.
Open Scope N_scope.

(** [print(s)] on the standard output, as the text it writes. *)
Definition print (s : str) : str := s ++ [10].

(** The formatted string [item -> qty]. *)
Definition format_item (kv : str * Z) : str :=
  fst kv ++ str_of " -> " ++ Json.int_repr (snd kv).

(** [print_data]: the text written to the standard output, next to the
    outcome of the call. *)
Definition print_data (data : inventory) : outcome unit * str :=
  (Outcome (Return tt) data [],
   print (10 :: str_of "--- Items Report ---")
   ++ match data with
      | [] => print (str_of "Inventory is empty.")
      | _ :: _ => flat_map (fun kv => print (format_item kv)) data
      end
   ++ print (str_of "--------------------" ++ [10])).
End Report.

(** * Properties *)

(** ** Strings and dictionaries *)

Lemma str_eqb_refl (a : str) : str_eqb a a = true.
Proof.
  induction a as [|x a IH]; simpl; [reflexivity|].
  now rewrite N.eqb_refl, IH.
Qed.

Lemma str_eqb_eq (a b : str) : str_eqb a b = true <-> a = b.
Proof.
  split; [|intros ->; apply str_eqb_refl].
  revert b; induction a as [|x a IH]; intros [|y b]; simpl; try discriminate.
  - reflexivity.
  - intros H. apply andb_true_iff in H as [Hx Ha].
    apply N.eqb_eq in Hx. apply IH in Ha. now subst.
Qed.

Lemma str_eqb_neq (a b : str) : str_eqb a b = false <-> a <> b.
Proof.
  split.
  - intros H E. apply str_eqb_eq in E. congruence.
  - intros H. destruct (str_eqb a b) eqn:E; [|reflexivity].
    apply str_eqb_eq in E. contradiction.
Qed.

Module DictFacts.
Section Facts.
Variable V : Type.
Implicit Types (d : Dict.t V) (k : str) (v : V).

Lemma get_set_same d k v : Dict.get (Dict.set d k v) k = Some v.
Proof.
  induction d as [|[k' v'] d IH]; simpl.
  - now rewrite str_eqb_refl.
  - destruct (str_eqb k' k) eqn:E; simpl; rewrite E; [reflexivity | exact IH].
Qed.

Lemma get_set_other d k k' v :
  k' <> k -> Dict.get (Dict.set d k v) k' = Dict.get d k'.
Proof.
  intros Hne. induction d as [|[k0 v0] d IH]; simpl.
  - assert (str_eqb k k' = false) as -> by (apply str_eqb_neq; congruence).
    reflexivity.
  - destruct (str_eqb k0 k) eqn:E; simpl.
    + apply str_eqb_eq in E; subst k0.
      assert (str_eqb k k' = false) as -> by (apply str_eqb_neq; congruence).
      reflexivity.
    + now rewrite IH.
Qed.

Lemma get_del_other d k k' :
  k' <> k -> Dict.get (Dict.del d k) k' = Dict.get d k'.
Proof.
  intros Hne. induction d as [|[k0 v0] d IH]; simpl; [reflexivity|].
  destruct (str_eqb k0 k) eqn:E; simpl.
  - apply str_eqb_eq in E; subst k0.
    assert (str_eqb k k' = false) as -> by (apply str_eqb_neq; congruence).
    reflexivity.
  - now rewrite IH.
Qed.

Lemma get_none_iff d k : Dict.get d k = None <-> ~ In k (Dict.keys d).
Proof.
  induction d as [|[k0 v0] d IH]; simpl; [tauto|].
  destruct (str_eqb k0 k) eqn:E.
  - apply str_eqb_eq in E. split; [discriminate | intros H; exfalso; auto].
  - apply str_eqb_neq in E. rewrite IH. tauto.
Qed.

Lemma get_del_same d k : Dict.wf d -> Dict.get (Dict.del d k) k = None.
Proof.
  unfold Dict.wf. induction d as [|[k0 v0] d IH]; simpl; intros Hwf.
  - reflexivity.
  - inversion Hwf as [|? ? Hnotin Hwf']; subst.
    destruct (str_eqb k0 k) eqn:E; simpl.
    + apply str_eqb_eq in E; subst k0. now apply get_none_iff.
    + rewrite E. now apply IH.
Qed.

Lemma keys_set_present d k v :
  In k (Dict.keys d) -> Dict.keys (Dict.set d k v) = Dict.keys d.
Proof.
  induction d as [|[k0 v0] d IH]; simpl; [tauto|].
  intros Hin. destruct (str_eqb k0 k) eqn:E; simpl; [reflexivity|].
  apply str_eqb_neq in E. f_equal. apply IH. destruct Hin; congruence.
Qed.

Lemma set_absent d k v :
  ~ In k (Dict.keys d) -> Dict.set d k v = d ++ [(k, v)].
Proof.
  induction d as [|[k0 v0] d IH]; simpl; [reflexivity|].
  intros Hnotin. destruct (str_eqb k0 k) eqn:E.
  - apply str_eqb_eq in E. exfalso; auto.
  - f_equal. apply IH. tauto.
Qed.

Lemma wf_set d k v : Dict.wf d -> Dict.wf (Dict.set d k v).
Proof.
  unfold Dict.wf. intros Hwf.
  destruct (in_dec (list_eq_dec N.eq_dec) k (Dict.keys d)) as [Hin|Hnotin].
  - now rewrite keys_set_present.
  - rewrite set_absent by assumption. unfold Dict.keys in *.
    rewrite map_app. simpl.
    apply NoDup_app; [assumption | repeat constructor; simpl; tauto |].
    intros x Hx [<-|[]]. contradiction.
Qed.

Lemma keys_del_incl d k x : In x (Dict.keys (Dict.del d k)) -> In x (Dict.keys d).
Proof.
  induction d as [|[k0 v0] d IH]; simpl; [tauto|].
  destruct (str_eqb k0 k); simpl; tauto.
Qed.

Lemma wf_del d k : Dict.wf d -> Dict.wf (Dict.del d k).
Proof.
  unfold Dict.wf. induction d as [|[k0 v0] d IH]; simpl; intros Hwf; [assumption|].
  inversion Hwf as [|? ? Hnotin Hwf']; subst.
  destruct (str_eqb k0 k); simpl; [assumption|].
  constructor; [|now apply IH].
  intros Hin. apply Hnotin. eapply keys_del_incl; eassumption.
Qed.

Lemma Forall_set (P : str * V -> Prop) d k v :
  (forall k', P (k', v)) -> Forall P d -> Forall P (Dict.set d k v).
Proof.
  intros Hv. induction 1 as [|[k0 v0] d Hx Hd IH]; simpl.
  - repeat constructor. apply Hv.
  - destruct (str_eqb k0 k); constructor; auto.
Qed.

Lemma Forall_del (P : str * V -> Prop) d k :
  Forall P d -> Forall P (Dict.del d k).
Proof.
  induction 1 as [|[k0 v0] d Hx Hd IH]; simpl; [constructor|].
  destruct (str_eqb k0 k); [assumption | constructor; assumption].
Qed.

Lemma get_In d k v : Dict.get d k = Some v -> In (k, v) d.
Proof.
  induction d as [|[k0 v0] d IH]; simpl; [discriminate|].
  destruct (str_eqb k0 k) eqn:E.
  - apply str_eqb_eq in E. intros [= ->]. left. now subst.
  - auto.
Qed.

Lemma In_get d k v : Dict.wf d -> In (k, v) d -> Dict.get d k = Some v.
Proof.
  unfold Dict.wf. induction d as [|[k0 v0] d IH]; simpl; [tauto|].
  intros Hwf Hin. inversion Hwf as [|? ? Hnotin Hwf']; subst.
  destruct (str_eqb k0 k) eqn:E.
  - apply str_eqb_eq in E; subst k0. destruct Hin as [[= ->]|Hin]; [reflexivity|].
    exfalso. apply Hnotin. change k with (fst (k, v)). now apply in_map.
  - apply str_eqb_neq in E. destruct Hin as [[= -> _]|Hin]; [congruence|].
    now apply IH.
Qed.

Lemma of_pairs_app (acc pairs : list (str * V)) :
  NoDup (map fst (acc ++ pairs)) ->
  fold_left (fun d kv => Dict.set d (fst kv) (snd kv)) pairs acc = acc ++ pairs.
Proof.
  revert acc. induction pairs as [|[k v] pairs IH]; intros acc Hnd; simpl.
  - now rewrite app_nil_r.
  - assert (Hnotin : ~ In k (Dict.keys acc)).
    { unfold Dict.keys. rewrite map_app in Hnd. simpl in Hnd.
      apply NoDup_remove_2 in Hnd. intros Hin. apply Hnd.
      apply in_or_app. now left. }
    rewrite set_absent by assumption.
    replace (acc ++ (k, v) :: pairs) with ((acc ++ [(k, v)]) ++ pairs)
      by (now rewrite <- app_assoc).
    apply IH. now rewrite <- app_assoc.
Qed.

Lemma of_pairs_wf (pairs : list (str * V)) :
  Dict.wf pairs -> Dict.of_pairs pairs = pairs.
Proof.
  intros Hwf. unfold Dict.of_pairs. now rewrite of_pairs_app.
Qed.
End Facts.
End DictFacts.

(** ** The inventory operations *)

Module InventoryFacts.
Import Inventory.
Open Scope Z_scope.

Lemma get_default_positive (data : inventory) (name : str) :
  positive_stock data -> 0 <= Dict.get_default data name 0.
Proof.
  intros Hpos. unfold Dict.get_default.
  destruct (Dict.get data name) as [q|] eqn:E; [|lia].
  apply DictFacts.get_In in E.
  unfold positive_stock in Hpos. rewrite Forall_forall in Hpos.
  specialize (Hpos _ E). simpl in Hpos. lia.
Qed.

Lemma remove_item_cases (data : inventory) (item : str) (qty : Z) :
  match Dict.get data item with
  | None => remove_item data item qty
            = Outcome (Return tt) data [(WARNING, NotInStock item)]
  | Some stock =>
      if stock >? qty
      then store (remove_item data item qty) = Dict.set data item (stock - qty)
      else store (remove_item data item qty) = Dict.del data item
  end.
Proof.
  unfold remove_item, Dict.getitem.
  destruct (Dict.get data item) as [stock|]; [|reflexivity].
  destruct (stock >? qty); reflexivity.
Qed.

Lemma remove_item_returns (data : inventory) (item : str) (qty : Z) :
  result (remove_item data item qty) = Return tt.
Proof.
  unfold remove_item, Dict.getitem.
  destruct (Dict.get data item) as [stock|]; [|reflexivity].
  destruct (stock >? qty); reflexivity.
Qed.

Lemma add_item_returns (data : inventory) (item qty : value) :
  result (add_item data item qty) = Return tt.
Proof.
  unfold add_item.
  destruct (as_str item) as [[|c name]|], (as_int qty); reflexivity.
Qed.




(** C2: after [add_item] with a non-empty string [name] and an integer
    [qty], [get_qty] of [name] is what it was before plus [qty]; when the
    item was absent the entry starts from 0. *)
Theorem get_qty_after_add (data : inventory) (name : str) (qty : value) (n : Z) :
  name <> [] ->
  as_int qty = Some n ->
  (forall q, result (get_qty data name) = Return q ->
             result (get_qty (store (add_item data (VStr name) qty)) name)
             = Return (q + n)) /\
  (Dict.get data name = None ->
   Dict.get (store (add_item data (VStr name) qty)) name = Some (0 + n)).
Proof.
  intros Hne Hint. unfold add_item, get_qty. simpl. rewrite Hint.
  destruct name as [|c name]; [congruence|]. simpl. split.
  - intros q [= <-]. unfold Dict.get_default at 1.
    now rewrite DictFacts.get_set_same.
  - intros Habs. rewrite DictFacts.get_set_same.
    unfold Dict.get_default. now rewrite Habs.
Qed.

Lemma get_qty_after_add_witness :
  result (get_qty (store (add_item [(apple, 3)] (VStr apple) (VInt 4))) apple)
  = Return 7.
Proof.
  refine (proj1 (@get_qty_after_add [(apple, 3)] apple (VInt 4) 4 _ _) 3 _).
  - discriminate.
  - reflexivity.
  - reflexivity.
Defined.

(** C3: removing at least the current quantity of a present item deletes
    its key: the item is absent afterwards and nothing is raised. *)
Theorem remove_all_deletes (data : inventory) (item : str) (q qty : Z) :
  Dict.wf data ->
  Dict.get data item = Some q ->
  qty >= q ->
  Dict.get (store (remove_item data item qty)) item = None /\
  result (remove_item data item qty) = Return tt.
Proof.
  intros Hwf Hget Hge. split; [|apply remove_item_returns].
  pose proof (remove_item_cases data item qty) as Hc. rewrite Hget in Hc.
  assert ((q >? qty) = false) as Hgt by (rewrite Z.gtb_ltb; apply Z.ltb_ge; lia).
  rewrite Hgt in Hc. rewrite Hc. now apply DictFacts.get_del_same.
Qed.

Lemma remove_all_deletes_witness :
  Dict.get (store (remove_item [(apple, 3); (banana, 20)] apple 5)) apple = None /\
  result (remove_item [(apple, 3); (banana, 20)] apple 5) = Return tt.
Proof.
  apply (@remove_all_deletes [(apple, 3); (banana, 20)] apple 3 5).
  - repeat constructor; simpl; intuition discriminate.
  - reflexivity.
  - lia.
Defined.

(** C4: removing less than the current quantity [q] of a present item
    leaves it present with quantity [q - qty]. *)
Theorem remove_some_decrements (data : inventory) (item : str) (q qty : Z) :
  Dict.get data item = Some q ->
  qty < q ->
  Dict.get (store (remove_item data item qty)) item = Some (q - qty) /\
  result (get_qty (store (remove_item data item qty)) item) = Return (q - qty).
Proof.
  intros Hget Hlt.
  pose proof (remove_item_cases data item qty) as Hc. rewrite Hget in Hc.
  assert ((q >? qty) = true) as Hgt by (apply Z.gtb_lt; lia).
  rewrite Hgt in Hc. unfold get_qty, Dict.get_default. simpl. rewrite Hc.
  now rewrite DictFacts.get_set_same.
Qed.

Lemma remove_some_decrements_witness :
  Dict.get (store (remove_item [(apple, 10)] apple 3)) apple = Some 7 /\
  result (get_qty (store (remove_item [(apple, 10)] apple 3)) apple) = Return 7.
Proof.
  apply (@remove_some_decrements [(apple, 10)] apple 10 3); [reflexivity | lia].
Defined.

(** C5: [remove_item] on an absent item leaves the inventory as it was,
    whatever [qty] is, returns normally, and logs one warning. *)
Theorem remove_absent_noop (data : inventory) (item : str) (qty : Z) :
  Dict.get data item = None ->
  remove_item data item qty
  = Outcome (Return tt) data [(WARNING, NotInStock item)].
Proof.
  intros Habs. pose proof (remove_item_cases data item qty) as Hc.
  now rewrite Habs in Hc.
Qed.

Lemma remove_absent_noop_witness :
  remove_item [(apple, 7); (banana, 20)] orange 1
  = Outcome (Return tt) [(apple, 7); (banana, 20)] [(WARNING, NotInStock orange)].
Proof.
  apply (@remove_absent_noop [(apple, 7); (banana, 20)] orange 1). reflexivity.
Defined.

(** C6: [add_item] with an item that is not a string, a quantity that is
    not an integer, or an empty item name leaves the inventory as it was and
    returns normally; the rejection is one log record. *)
Theorem add_item_rejects (data : inventory) (item qty : value) :
  isinstance_str item = false \/ isinstance_int qty = false \/ item = VStr [] ->
  store (add_item data item qty) = data /\
  result (add_item data item qty) = Return tt /\
  (logged (add_item data item qty) = [(ERROR, InvalidTypes)] \/
   logged (add_item data item qty) = [(WARNING, EmptyName)]).
Proof.
  unfold isinstance_str, isinstance_int, add_item.
  intros [H|[H|H]].
  - destruct (as_str item); [discriminate|]. simpl. auto.
  - destruct (as_int qty); [discriminate|].
    destruct (as_str item); simpl; auto.
  - subst item. simpl. destruct (as_int qty); simpl; auto.
Qed.

Lemma add_item_rejects_witness :
  store (add_item [(apple, 10)] (VInt 123) (VStr (str_of "ten"))) = [(apple, 10)] /\
  result (add_item [(apple, 10)] (VInt 123) (VStr (str_of "ten"))) = Return tt /\
  (logged (add_item [(apple, 10)] (VInt 123) (VStr (str_of "ten")))
   = [(ERROR, InvalidTypes)] \/
   logged (add_item [(apple, 10)] (VInt 123) (VStr (str_of "ten")))
   = [(WARNING, EmptyName)]).
Proof.
  apply (@add_item_rejects [(apple, 10)] (VInt 123) (VStr (str_of "ten"))).
  left. reflexivity.
Defined.

Lemma filter_keys_wf (data : inventory) (threshold : Z) (f : str -> Z) :
  (forall k q, In (k, q) data -> f k = q) ->
  map fst (filter (fun kv => snd kv <? threshold) data)
  = filter (fun k => f k <? threshold) (Dict.keys data).
Proof.
  induction data as [|[k q] data IH]; intros Hf; simpl; [reflexivity|].
  rewrite (Hf k q) by (now left).
  destruct (q <? threshold); simpl; rewrite IH; auto;
    intros k' q' Hin; apply Hf; now right.
Qed.

(** C7: [check_low_items] returns exactly the item names whose quantity is
    strictly below the threshold, in iteration order, and leaves the
    inventory as it was. *)
Theorem check_low_items_exact (data : inventory) (threshold : Z) :
  Dict.wf data ->
  result (check_low_items data threshold)
  = Return (low_stock_spec data threshold) /\
  (forall k, In k (low_stock_spec data threshold) <->
             exists q, Dict.get data k = Some q /\ q < threshold) /\
  store (check_low_items data threshold) = data.
Proof.
  intros Hwf. unfold check_low_items, low_stock_spec. simpl.
  split; [|split; [|reflexivity]].
  - f_equal. apply filter_keys_wf. intros k q Hin.
    unfold Dict.get_default. now rewrite (DictFacts.In_get _ _ Hwf Hin).
  - intros k. rewrite filter_In. unfold Dict.get_default. split.
    + intros [Hin Hlt]. destruct (Dict.get data k) as [q|] eqn:E.
      * exists q. split; [reflexivity | now apply Z.ltb_lt].
      * apply DictFacts.get_none_iff in E. contradiction.
    + intros (q & Hget & Hlt). rewrite Hget. split; [|now apply Z.ltb_lt].
      apply DictFacts.get_In in Hget.
      change k with (fst (k, q)). now apply in_map.
Qed.

Lemma check_low_items_exact_witness :
  result (check_low_items
            [(str_of "a", 2); (str_of "b", 10); (str_of "c", 4)] 5)
  = Return [str_of "a"; str_of "c"].
Proof.
  refine (proj1 (@check_low_items_exact
                   [(str_of "a", 2); (str_of "b", 10); (str_of "c", 4)] 5 _)).
  repeat constructor; simpl; intuition discriminate.
Defined.

(** C10: [add_item] and [remove_item] change at most the entry of the item
    they are given; the presence and the quantity of every other key are
    what they were. *)
Theorem other_keys_untouched (data : inventory) (k : str) :
  (forall item qty,
      as_str item <> Some k ->
      Dict.get (store (add_item data item qty)) k = Dict.get data k) /\
  (forall item qty,
      item <> k ->
      Dict.get (store (remove_item data item qty)) k = Dict.get data k).
Proof.
  split.
  - intros item qty Hne. unfold add_item.
    destruct (as_str item) as [name|]; [|reflexivity].
    destruct (as_int qty) as [n|]; [|reflexivity].
    destruct name as [|c name]; [reflexivity|]. simpl.
    apply DictFacts.get_set_other. congruence.
  - intros item qty Hne. pose proof (remove_item_cases data item qty) as Hc.
    destruct (Dict.get data item) as [stock|].
    + destruct (stock >? qty); rewrite Hc.
      * apply DictFacts.get_set_other. congruence.
      * apply DictFacts.get_del_other. congruence.
    + now rewrite Hc.
Qed.

Lemma other_keys_untouched_witness :
  Dict.get (store (add_item [(apple, 10); (banana, 20)] (VStr apple) (VInt 5)))
           banana = Some 20 /\
  Dict.get (store (remove_item [(apple, 10); (banana, 20)] apple 10))
           banana = Some 20.
Proof.
  destruct (other_keys_untouched [(apple, 10); (banana, 20)] banana) as [Ha Hr].
  split.
  - apply (Ha (VStr apple) (VInt 5)). discriminate.
  - apply (Hr apple 10). discriminate.
Defined.
(** The run of [main] on an empty inventory, as the specification lists
    it. *)
Example demonstration_run :
  let d1 := store (add_item [] (VStr apple) (VInt 10)) in
  let d2 := store (add_item d1 (VStr banana) (VInt 20)) in
  let d3 := store (add_item d2 (VInt 123) (VStr (str_of "ten"))) in
  let d4 := store (remove_item d3 apple 3) in
  let d5 := store (remove_item d4 orange 1) in
  d2 = [(apple, 10); (banana, 20)] /\ d3 = d2 /\
  d4 = [(apple, 7); (banana, 20)] /\ d5 = d4 /\
  result (get_qty d5 apple) = Return 7 /\
  result (check_low_items d5 default_threshold) = Return [].
Proof. repeat split; reflexivity. Qed.
End InventoryFacts.

(** ** The JSON encoder and decoder *)

Module JsonFacts.
Import Json.
Open Scope N_scope.

#[local] Arguments hex4_value : simpl never.
#[local] Arguments backslash_escape : simpl never.
#[local] Arguments is_high_surrogate : simpl never.
#[local] Arguments is_low_surrogate : simpl never.
#[local] Arguments join_surrogates : simpl never.
#[local] Arguments N.eqb : simpl nomatch.
#[local] Arguments N.leb : simpl nomatch.
#[local] Arguments is_digit : simpl never.
#[local] Arguments is_ws : simpl never.

Lemma hex_value_digit (d : N) : d < 16 -> hex_value (hex_digit d) = Some d.
Proof.
  intros Hd. unfold hex_value, hex_digit.
  destruct (d <? 10) eqn:E.
  - apply N.ltb_lt in E.
    assert ((48 <=? 48 + d) && (48 + d <=? 57) = true) as ->
      by (apply andb_true_iff; split; apply N.leb_le; lia).
    f_equal. lia.
  - apply N.ltb_ge in E.
    assert ((48 <=? 87 + d) && (87 + d <=? 57) = false) as ->
      by (apply andb_false_iff; right; apply N.leb_gt; lia).
    assert ((97 <=? 87 + d) && (87 + d <=? 102) = true) as ->
      by (apply andb_true_iff; split; apply N.leb_le; lia).
    f_equal. lia.
Qed.

Lemma hex_digits_sum (n : N) :
  n < 0x10000 ->
  ((n / 4096 mod 16 * 16 + n / 256 mod 16) * 16 + n / 16 mod 16) * 16
  + n mod 16 = n.
Proof.
  intros Hn.
  change 4096 with (16 * 16 * 16). change 256 with (16 * 16).
  rewrite <- !N.Div0.div_div.
  pose proof (N.div_mod n 16 ltac:(discriminate)) as H0.
  pose proof (N.div_mod (n / 16) 16 ltac:(discriminate)) as H1.
  pose proof (N.div_mod (n / 16 / 16) 16 ltac:(discriminate)) as H2.
  pose proof (N.div_mod (n / 16 / 16 / 16) 16 ltac:(discriminate)) as H3.
  assert (n / 16 / 16 / 16 / 16 = 0) as Hz
    by (apply N.div_small_iff; [discriminate|];
        repeat (apply N.Div0.div_lt_upper_bound); exact Hn).
  rewrite Hz in H3. lia.
Qed.

Lemma hex4_value_hex4 (n : N) :
  n < 0x10000 ->
  exists a b c d, hex4 n = [a; b; c; d] /\ hex4_value a b c d = Some n.
Proof.
  intros Hn. do 4 eexists. split; [reflexivity|].
  unfold hex4_value.
  rewrite !hex_value_digit by (apply N.mod_lt; discriminate).
  f_equal. now apply hex_digits_sum.
Qed.

Lemma land_shifted_low (a x : N) : x < 2 ^ 10 -> N.land (N.shiftl a 10) x = 0.
Proof.
  intros Hx. apply N.bits_inj_0. intros i. rewrite N.land_spec.
  destruct (N.ltb_spec i 10) as [Hi|Hi].
  - now rewrite N.shiftl_spec_low.
  - rewrite <- (N.mod_small x (2 ^ 10)) by assumption.
    rewrite N.mod_pow2_bits_high by assumption. apply andb_false_r.
Qed.

Lemma lor_shifted_low (a x : N) :
  x < 2 ^ 10 -> N.lor (N.shiftl a 10) x = a * 1024 + x.
Proof.
  intros Hx. rewrite <- N.lxor_lor by now apply land_shifted_low.
  rewrite <- N.add_nocarry_lxor by now apply land_shifted_low.
  now rewrite N.shiftl_mul_pow2.
Qed.

Lemma halves_spec (c : codepoint) :
  0x10000 <= c -> c < 0x110000 ->
  high_half c = 0xD800 + (c - 0x10000) / 1024 /\
  low_half c = 0xDC00 + (c - 0x10000) mod 1024 /\
  (c - 0x10000) / 1024 < 1024.
Proof.
  intros Hlo Hhi. unfold high_half, low_half.
  change 0x3FF with (N.ones 10). rewrite !N.land_ones, N.shiftr_div_pow2.
  change (2 ^ 10) with 1024.
  assert (Hq : (c - 0x10000) / 1024 < 1024)
    by (apply N.Div0.div_lt_upper_bound; lia).
  rewrite (N.mod_small _ 1024) by assumption.
  change 0xD800 with (N.shiftl 54 10). change 0xDC00 with (N.shiftl 55 10).
  rewrite !lor_shifted_low;
    [| apply N.mod_lt; discriminate | assumption].
  repeat split; try assumption.
Qed.

Lemma join_halves (c : codepoint) :
  0x10000 <= c -> c < 0x110000 ->
  is_high_surrogate (high_half c) = true /\
  is_low_surrogate (low_half c) = true /\
  high_half c < 0x10000 /\ low_half c < 0x10000 /\
  join_surrogates (high_half c) (low_half c) = c.
Proof.
  intros Hlo Hhi.
  destruct (@halves_spec c Hlo Hhi) as (Hh & Hl & Hq).
  pose proof (N.mod_lt (c - 0x10000) 1024 ltac:(discriminate)) as Hr.
  pose proof (N.div_mod (c - 0x10000) 1024 ltac:(discriminate)) as Hdm.
  unfold is_high_surrogate, is_low_surrogate, join_surrogates.
  rewrite Hh, Hl. clear Hh Hl.
  set (q := (c - 0x10000) / 1024) in *. set (r := (c - 0x10000) mod 1024) in *.
  clearbody q r.
  replace (0xD800 + q - 0xD800) with q by lia.
  replace (0xDC00 + r - 0xDC00) with r by lia.
  rewrite lor_shifted_low by assumption.
  repeat split; try lia; apply andb_true_iff; split; apply N.leb_le; lia.
Qed.

Lemma scanstring_plain (c : N) (r : str) :
  c <> 34 -> c <> 92 -> 0x1F < c -> scanstring (c :: r) = push c (scanstring r).
Proof.
  intros Hq Hb Hc. simpl.
  apply N.eqb_neq in Hq, Hb. rewrite Hq, Hb.
  apply N.leb_gt in Hc. now rewrite Hc.
Qed.

Lemma scanstring_simple (e ch : N) (r : str) :
  e <> 117 -> backslash_escape e = Some ch ->
  scanstring (92 :: e :: r) = push ch (scanstring r).
Proof.
  intros He Hesc. simpl. apply N.eqb_neq in He. now rewrite He, Hesc.
Qed.

Lemma scanstring_unicode (h1 h2 h3 h4 uni : N) (r : str) :
  hex4_value h1 h2 h3 h4 = Some uni ->
  (is_high_surrogate uni = true -> no_low_escape r) ->
  scanstring (92 :: 117 :: h1 :: h2 :: h3 :: h4 :: r) = push uni (scanstring r).
Proof.
  intros Hhex Hnext. simpl. rewrite Hhex.
  destruct (is_high_surrogate uni); [|reflexivity].
  specialize (Hnext eq_refl).
  destruct r as [|b [|u [|g1 [|g2 [|g3 [|g4 r']]]]]]; try reflexivity.
  destruct (N.eqb_spec b 92) as [->|]; [|reflexivity].
  destruct (N.eqb_spec u 117) as [->|]; [|reflexivity].
  destruct (Hnext _ _ _ _ _ eq_refl) as (u2 & Hu2 & Hlow).
  simpl. now rewrite Hu2, Hlow.
Qed.

Lemma scanstring_pair (h1 h2 h3 h4 g1 g2 g3 g4 hi lo : N) (r : str) :
  hex4_value h1 h2 h3 h4 = Some hi -> is_high_surrogate hi = true ->
  hex4_value g1 g2 g3 g4 = Some lo -> is_low_surrogate lo = true ->
  scanstring (92 :: 117 :: h1 :: h2 :: h3 :: h4
              :: 92 :: 117 :: g1 :: g2 :: g3 :: g4 :: r)
  = push (join_surrogates hi lo) (scanstring r).
Proof.
  intros Hh Hhi Hg Hlo. simpl. now rewrite Hh, Hhi, Hg, Hlo.
Qed.

Lemma escape_char_shape (c : N) : c < 0x110000 -> escape_shape c (escape_char c).
Proof.
  intros Hc. unfold escape_char.
  destruct (N.eqb_spec c 92) as [->|H92];
    [now apply shape_simple with (e := 92)|].
  destruct (N.eqb_spec c 34) as [->|H34];
    [now apply shape_simple with (e := 34)|].
  destruct (N.eqb_spec c 8) as [->|H8];
    [now apply shape_simple with (e := 98)|].
  destruct (N.eqb_spec c 12) as [->|H12];
    [now apply shape_simple with (e := 102)|].
  destruct (N.eqb_spec c 10) as [->|H10];
    [now apply shape_simple with (e := 110)|].
  destruct (N.eqb_spec c 13) as [->|H13];
    [now apply shape_simple with (e := 114)|].
  destruct (N.eqb_spec c 9) as [->|H9];
    [now apply shape_simple with (e := 116)|].
  destruct ((32 <=? c) && (c <=? 126)) eqn:Hprint.
  - apply andb_true_iff in Hprint as [Hlo Hhi].
    apply N.leb_le in Hlo, Hhi. apply shape_plain; lia.
  - destruct (N.ltb_spec c 0x10000) as [Hbmp|Hsup].
    + destruct (@hex4_value_hex4 c Hbmp) as (h1 & h2 & h3 & h4 & Heq & Hval).
      unfold unicode_escape. rewrite Heq. now apply shape_unicode.
    + destruct (@join_halves c Hsup Hc) as (Hhi & Hlo & Hhb & Hlb & Hjoin).
      fold (high_half c) (low_half c).
      destruct (@hex4_value_hex4 _ Hhb) as (h1 & h2 & h3 & h4 & Heq & Hval).
      destruct (@hex4_value_hex4 _ Hlb) as (g1 & g2 & g3 & g4 & Heq' & Hval').
      unfold unicode_escape. rewrite Heq, Heq'. simpl.
      eapply shape_pair; eassumption.
Qed.

Lemma high_not_low (u : N) : is_high_surrogate u = true -> is_low_surrogate u = false.
Proof.
  unfold is_high_surrogate, is_low_surrogate. intros H.
  apply andb_true_iff in H as [_ H]. apply N.leb_le in H.
  apply andb_false_iff. left. apply N.leb_gt. lia.
Qed.

Lemma quote_no_low_escape (rest : str) : no_low_escape (34 :: rest).
Proof. intros g1 g2 g3 g4 r' [=]. Qed.

Lemma shape_no_low_escape (c : N) (e tail : str) :
  escape_shape c e -> is_low_surrogate c = false -> no_low_escape (e ++ tail).
Proof.
  intros Hshape Hlow g1 g2 g3 g4 r'.
  destruct Hshape as [e0 He0 _ | H34 H92 _ _ | h1 h2 h3 h4 Hval _
                     | h1 h2 h3 h4 k1 k2 k3 k4 hi lo Hval Hhi _ _ _ _]; simpl.
  - intros [= E]. congruence.
  - intros [= E]. congruence.
  - intros [= <- <- <- <- _]. eauto.
  - intros [= <- <- <- <- _]. eauto using high_not_low.
Qed.

Lemma scanstring_escaped (s rest : str) :
  plain_key s = true ->
  scanstring (flat_map escape_char s ++ 34 :: rest) = Some (s, rest).
Proof.
  unfold plain_key. intros H. apply andb_true_iff in H as [Hcp Hpair].
  induction s as [|c s IH]; [reflexivity|].
  simpl in Hcp, Hpair.
  apply andb_true_iff in Hcp as [Hc Hcp].
  apply andb_true_iff in Hpair as [Hnext Hpair].
  specialize (IH Hcp Hpair).
  apply N.ltb_lt in Hc. pose proof (@escape_char_shape c Hc) as Hshape.
  change (flat_map escape_char (c :: s)) with (escape_char c ++ flat_map escape_char s).
  rewrite <- List.app_assoc.
  set (tail := flat_map escape_char s ++ 34 :: rest) in *.
  assert (Hstep : scanstring (escape_char c ++ tail) = push c (scanstring tail)).
  { destruct Hshape as [e0 He0 Hesc | H34 H92 Hctl _ | h1 h2 h3 h4 Hval _
                       | h1 h2 h3 h4 g1 g2 g3 g4 hi lo Hval Hhi Hval' Hlo Hjoin _].
    - now apply scanstring_simple.
    - now apply scanstring_plain.
    - apply scanstring_unicode; [assumption|]. intros Hhigh.
      subst tail. destruct s as [|c' s'].
      + apply quote_no_low_escape.
      + rewrite Hhigh in Hnext. simpl in Hnext.
        apply negb_true_iff in Hnext.
        change (flat_map escape_char (c' :: s'))
          with (escape_char c' ++ flat_map escape_char s').
        rewrite <- List.app_assoc.
        apply shape_no_low_escape with (c := c'); [|assumption].
        apply escape_char_shape. simpl in Hcp.
        apply andb_true_iff in Hcp as [Hc' _]. now apply N.ltb_lt in Hc'.
    - rewrite <- Hjoin. now apply scanstring_pair. }
  rewrite Hstep, IH. reflexivity.
Qed.

(** *** Integers *)

Lemma uint_digits_all (d : Decimal.uint) :
  Forall (fun c => is_digit c = true) (uint_digits d).
Proof. induction d; simpl; constructor; auto. Qed.

Lemma digits_value_acc (d : Decimal.uint) (acc : positive) :
  fold_left (fun a c => a * 10 + (c - 48)) (uint_digits d) (Npos acc)
  = Npos (Pos.of_uint_acc d acc).
Proof.
  revert acc.
  induction d; intros acc; cbn [uint_digits fold_left Pos.of_uint_acc];
    [reflexivity| ..]; rewrite <- IHd; f_equal; lia.
Qed.

Lemma digits_value_uint (d : Decimal.uint) :
  digits_value (uint_digits d) = N.of_uint d.
Proof.
  unfold digits_value, N.of_uint.
  induction d; cbn [uint_digits fold_left Pos.of_uint];
    [reflexivity | exact IHd | ..];
    rewrite <- digits_value_acc; reflexivity.
Qed.

Lemma digits_value_to_uint (n : N) :
  digits_value (uint_digits (N.to_uint n)) = n.
Proof. rewrite digits_value_uint. apply DecimalN.Unsigned.of_to. Qed.

Lemma unorm_to_uint (n : N) : Decimal.unorm (N.to_uint n) = N.to_uint n.
Proof.
  rewrite <- (DecimalN.Unsigned.to_of (N.to_uint n)).
  now rewrite DecimalN.Unsigned.of_to.
Qed.

(** The decimal digits of a number: a lone 0, or a sequence that starts
    with a non-zero digit. *)
Lemma to_uint_digits_shape (n : N) :
  uint_digits (N.to_uint n) = [48] \/
  exists c ds, uint_digits (N.to_uint n) = c :: ds /\
               c <> 48 /\ is_digit c = true.
Proof.
  pose proof (unorm_to_uint n) as Hnorm.
  pose proof (uint_digits_all (N.to_uint n)) as Hall.
  destruct (N.to_uint n) as [|d|d|d|d|d|d|d|d|d|d] eqn:E;
    try (right; simpl in *; inversion Hall; subst;
         do 2 eexists; split; [reflexivity | split; [discriminate | assumption]]).
  - discriminate Hnorm.
  - left. rewrite DecimalFacts.unorm_D0 in Hnorm. unfold Decimal.unorm in Hnorm.
    destruct (Decimal.nzhead d) eqn:Hnz; try (injection Hnorm as <-; reflexivity);
      exfalso; apply (DecimalFacts.nzhead_nonzero d d); congruence.
Qed.

Lemma span_digits_app (ds rest : str) :
  Forall (fun c => is_digit c = true) ds ->
  match rest with [] => True | c :: _ => is_digit c = false end ->
  span_digits (ds ++ rest) = (ds, rest).
Proof.
  intros Hds Hrest. induction Hds as [|c ds Hc _ IH]; simpl.
  - destruct rest as [|c rest]; [reflexivity|]. simpl in *. now rewrite Hrest.
  - now rewrite Hc, IH.
Qed.

Lemma ends_number_nondigit (rest : str) :
  ends_number rest -> match rest with [] => True | c :: _ => is_digit c = false end.
Proof. destruct rest; simpl; tauto. Qed.

Lemma match_frac_none (rest : str) : ends_number rest -> match_frac rest = None.
Proof.
  destruct rest as [|c rest]; [reflexivity|]. intros (_ & H & _). simpl.
  apply N.eqb_neq in H. now rewrite H.
Qed.

Lemma match_exp_none (rest : str) : ends_number rest -> match_exp rest = None.
Proof.
  destruct rest as [|c rest]; [reflexivity|]. intros (_ & _ & H & H'). simpl.
  apply N.eqb_neq in H, H'. now rewrite H, H'.
Qed.

Lemma is_digit_range (c : N) : is_digit c = true -> 48 <= c <= 57.
Proof.
  unfold is_digit. intros H. apply andb_true_iff in H as [H1 H2].
  apply N.leb_le in H1, H2. lia.
Qed.

Lemma digits_head (n : N) :
  exists c ds, uint_digits (N.to_uint n) = c :: ds /\ is_digit c = true.
Proof.
  destruct (to_uint_digits_shape n) as [E | (c & ds & E & _ & Hdig)];
    rewrite E; eauto.
Qed.

Lemma match_unsigned_digits (n : N) (sign rest : str) :
  ends_number rest ->
  match uint_digits (N.to_uint n) ++ rest with
  | c :: r =>
      if c =? 48 then Some (sign ++ [c], r)
      else if is_digit c
      then let (ds, rest') := span_digits r in Some (sign ++ c :: ds, rest')
      else None
  | [] => None
  end = Some (sign ++ uint_digits (N.to_uint n), rest).
Proof.
  intros Hrest. apply ends_number_nondigit in Hrest.
  pose proof (uint_digits_all (N.to_uint n)) as Hall.
  destruct (to_uint_digits_shape n) as [E | (c & ds & E & Hnz & Hdig)];
    rewrite E in *.
  - reflexivity.
  - inversion Hall as [|? ? _ Hds]; subst. cbn [app].
    assert ((c =? 48) = false) as -> by (now apply N.eqb_neq).
    rewrite Hdig, span_digits_app by assumption. reflexivity.
Qed.

Lemma match_integer_repr (z : Z) (rest : str) :
  ends_number rest ->
  match_integer (int_repr z ++ rest) = Some (int_repr z, rest).
Proof.
  intros Hrest. unfold int_repr, match_integer.
  destruct (z <? 0)%Z; cbn [app].
  - change (45 =? 45) with true. cbn iota.
    now apply (@match_unsigned_digits _ [45]).
  - destruct (digits_head (Z.abs_N z)) as (c & ds & E & Hdig).
    pose proof (@is_digit_range _ Hdig) as Hr.
    pose proof (@match_unsigned_digits (Z.abs_N z) [] rest Hrest) as Hm.
    revert Hm. rewrite E. cbn [app].
    assert ((c =? 45) = false) as -> by (apply N.eqb_neq; lia).
    trivial.
Qed.

Lemma parse_int_repr (z : Z) : parse_int (int_repr z) = z.
Proof.
  unfold int_repr, parse_int.
  destruct (Z.ltb_spec z 0) as [Hneg|Hpos]; cbn [app].
  - change (45 =? 45) with true. cbn iota.
    rewrite digits_value_to_uint. lia.
  - destruct (digits_head (Z.abs_N z)) as (c & ds & E & Hdig).
    pose proof (@is_digit_range _ Hdig) as Hr.
    pose proof (digits_value_to_uint (Z.abs_N z)) as Hval.
    rewrite E in *.
    assert ((c =? 45) = false) as -> by (apply N.eqb_neq; lia).
    rewrite Hval. lia.
Qed.

Lemma match_number_repr (z : Z) (rest : str) :
  ends_number rest ->
  match_number (int_repr z ++ rest) = Some (VInt z, rest).
Proof.
  intros Hrest. unfold match_number.
  rewrite match_integer_repr, match_frac_none, match_exp_none by assumption.
  now rewrite parse_int_repr.
Qed.

Lemma int_repr_head (z : Z) :
  exists c r, int_repr z = c :: r /\ (c = 45 \/ is_digit c = true).
Proof.
  unfold int_repr. destruct (z <? 0)%Z; cbn [app].
  - eauto.
  - destruct (digits_head (Z.abs_N z)) as (c & ds & E & Hdig). eauto.
Qed.

Lemma scan_constant_repr (z : Z) (rest : str) :
  ends_number rest ->
  scan_constant (int_repr z ++ rest) = Some (VInt z, rest).
Proof.
  intros Hrest. unfold scan_constant.
  rewrite match_number_repr by assumption.
  destruct (int_repr_head z) as (c & r & E & Hc). rewrite E. cbn [app].
  assert (Hr : c = 45 \/ 48 <= c <= 57)
    by (destruct Hc; [left | right; apply is_digit_range]; assumption).
  unfold lit_null, lit_true, lit_false. cbn [strip_prefix].
  assert ((110 =? c) = false) as -> by (apply N.eqb_neq; lia).
  assert ((116 =? c) = false) as -> by (apply N.eqb_neq; lia).
  assert ((102 =? c) = false) as -> by (apply N.eqb_neq; lia).
  reflexivity.
Qed.

Lemma scan_once_repr (fuel : nat) (z : Z) (rest : str) :
  ends_number rest ->
  scan_once (S fuel) (int_repr z ++ rest) = Parsed (VInt z) rest.
Proof.
  intros Hrest. pose proof (@scan_constant_repr z rest Hrest) as Hconst.
  destruct (int_repr_head z) as (c & r & E & Hc). rewrite E in *.
  cbn [app] in *.
  assert (Hr : c = 45 \/ 48 <= c <= 57)
    by (destruct Hc; [left | right; apply is_digit_range]; assumption).
  cbn [scan_once].
  assert ((c =? 34) = false) as -> by (apply N.eqb_neq; lia).
  assert ((c =? 123) = false) as -> by (apply N.eqb_neq; lia).
  assert ((c =? 91) = false) as -> by (apply N.eqb_neq; lia).
  now rewrite Hconst.
Qed.

Lemma skip_ws_repr (z : Z) (rest : str) :
  skip_ws (int_repr z ++ rest) = int_repr z ++ rest.
Proof.
  destruct (int_repr_head z) as (c & r & E & Hc). rewrite E. cbn [app].
  assert (Hr : c = 45 \/ 48 <= c <= 57)
    by (destruct Hc; [left | right; apply is_digit_range]; assumption).
  cbn [skip_ws]. unfold is_ws.
  assert ((c =? 32) = false) as -> by (apply N.eqb_neq; lia).
  assert ((c =? 9) = false) as -> by (apply N.eqb_neq; lia).
  assert ((c =? 10) = false) as -> by (apply N.eqb_neq; lia).
  assert ((c =? 13) = false) as -> by (apply N.eqb_neq; lia).
  reflexivity.
Qed.

Lemma skip_ws_spaces (n : nat) (s : str) :
  skip_ws (repeat 32 n ++ s) = skip_ws s.
Proof. induction n as [|n IH]; [reflexivity | exact IH]. Qed.

(** *** Objects *)

Lemma encode_item_eq (kv : str * Z) : encode_item kv = 34 :: item_tail kv.
Proof.
  unfold encode_item, encode_basestring_ascii, key_separator, item_tail.
  cbn [app]. now rewrite <- List.app_assoc.
Qed.

Lemma join_items (indent : nat) (kv : str * Z) (l : list (str * Z)) :
  join (44 :: 10 :: repeat 32 indent) (map encode_item (kv :: l))
  = 34 :: item_tail kv ++ more indent l.
Proof.
  cbn [map join]. rewrite encode_item_eq.
  destruct l as [|kv' l]; cbn [map more app]; [now rewrite List.app_nil_r|].
  reflexivity.
Qed.

Lemma object_loop_eq (fuel : nat) (s : str) (pairs : list (str * value)) :
  object_loop (S fuel) s pairs =
  match scanstring s with
  | None => Invalid
  | Some (key, s1) =>
      match skip_ws s1 with
      | c :: s2 =>
          if c =? 58 then
            match scan_once fuel (skip_ws s2) with
            | Parsed v s3 =>
                match skip_ws s3 with
                | c3 :: s4 =>
                    if c3 =? 125
                    then Parsed (VDict (Dict.of_pairs (pairs ++ [(key, v)]))) s4
                    else if c3 =? 44 then
                      match skip_ws s4 with
                      | c5 :: s5 =>
                          if c5 =? 34
                          then object_loop fuel s5 (pairs ++ [(key, v)])
                          else Invalid
                      | [] => Invalid
                      end
                    else Invalid
                | [] => Invalid
                end
            | Invalid => Invalid
            | Exhausted => Exhausted
            end
          else Invalid
      | [] => Invalid
      end
  end.
Proof. reflexivity. Qed.

Lemma ends_number_more (indent : nat) (l : list (str * Z)) (rest : str) :
  ends_number (more indent l ++ 10 :: 125 :: rest).
Proof. destruct l; simpl; repeat split; discriminate. Qed.

Lemma skip_ws_ws (c : N) (s : str) :
  is_ws c = true -> skip_ws (c :: s) = skip_ws s.
Proof. intros H. cbn [skip_ws]. now rewrite H. Qed.

Lemma skip_ws_stop (c : N) (s : str) :
  is_ws c = false -> skip_ws (c :: s) = c :: s.
Proof. intros H. cbn [skip_ws]. now rewrite H. Qed.

Lemma object_loop_items (indent : nat) (l : list (str * Z)) :
  forall (kv : str * Z) (fuel : nat) (acc : list (str * value)) (rest : str),
    (List.length l + 2 <= fuel)%nat ->
    Forall (fun kv => plain_key (fst kv) = true) (kv :: l) ->
    object_loop fuel (item_tail kv ++ more indent l ++ 10 :: 125 :: rest) acc
    = Parsed (VDict (Dict.of_pairs (acc ++ map entry (kv :: l)))) rest.
Proof.
  induction l as [|kv' l IH]; intros [k v] fuel acc rest Hfuel Hkeys;
    (destruct fuel as [|[|fuel]]; [simpl in Hfuel; lia.. |]);
    inversion Hkeys as [|? ? Hk Hkeys']; subst;
    rewrite object_loop_eq; unfold item_tail; cbn [fst snd];
    rewrite <- List.app_assoc; cbn [app];
    rewrite scanstring_escaped by assumption;
    rewrite (@skip_ws_stop 58) by reflexivity;
    change (58 =? 58) with true; cbn iota;
    rewrite (@skip_ws_ws 32) by reflexivity;
    rewrite skip_ws_repr, scan_once_repr by apply ends_number_more.
  - reflexivity.
  - cbn [more app]. rewrite <- List.app_assoc.
    rewrite (@skip_ws_stop 44) by reflexivity.
    change (44 =? 125) with false. change (44 =? 44) with true. cbn iota.
    rewrite (@skip_ws_ws 10) by reflexivity.
    rewrite skip_ws_spaces, join_items. cbn [app].
    rewrite (@skip_ws_stop 34) by reflexivity.
    change (34 =? 34) with true. cbn iota.
    rewrite <- List.app_assoc, IH; [| simpl in *; lia | assumption].
    now rewrite <- List.app_assoc.
Qed.

Lemma length_join_items (sep : str) (l : list (str * Z)) :
  (List.length l <= List.length (join sep (map encode_item l)))%nat.
Proof.
  induction l as [|kv l IH]; [apply Nat.le_refl|].
  cbn [map join]. rewrite encode_item_eq.
  destruct (map encode_item l) as [|p ps] eqn:E.
  - destruct l; [simpl; lia | discriminate].
  - rewrite !length_app. simpl in *. lia.
Qed.

Lemma keys_entries (data : inventory) :
  Dict.keys (map entry data) = Dict.keys data.
Proof. unfold Dict.keys. rewrite map_map. reflexivity. Qed.

(** Decoding what the encoder wrote for an inventory gives the inventory
    back, provided every key is a [plain_key]. *)
Lemma loads_dumps (data : inventory) (indent : nat) :
  Dict.wf data ->
  Forall (fun kv => plain_key (fst kv) = true) data ->
  loads (dumps data indent) = Value (VDict (map entry data)).
Proof.
  intros Hwf Hkeys. destruct data as [|kv l]; [reflexivity|].
  unfold loads, dumps.
  set (sep := item_separator ++ 10 :: repeat 32 indent).
  set (text := _ ++ _).
  assert (Htext : text = 123 :: 10 :: repeat 32 indent
                         ++ 34 :: item_tail kv ++ more indent l ++ [10; 125]).
  { subst text sep. unfold item_separator. cbn [app].
    rewrite join_items. cbn [app]. now rewrite <- List.app_assoc. }
  assert (Hlen : (List.length l + 2 <= 2 * List.length text)%nat).
  { subst text. cbn [app List.length]. rewrite !length_app.
    pose proof (length_join_items sep (kv :: l)) as H.
    cbn [List.length] in H. lia. }
  clearbody text sep. subst text.
  cbn [starts_with_bom]. change (123 =? 0xFEFF) with false. cbn iota.
  rewrite (@skip_ws_stop 123) by reflexivity.
  cbn [scan_once]. change (123 =? 34) with false. change (123 =? 123) with true.
  cbn iota. rewrite (@skip_ws_ws 10) by reflexivity.
  rewrite skip_ws_spaces, (@skip_ws_stop 34) by reflexivity.
  change (34 =? 125) with false. change (34 =? 34) with true. cbn iota.
  rewrite object_loop_items by assumption. cbn [app skip_ws].
  rewrite DictFacts.of_pairs_wf; [reflexivity|].
  unfold Dict.wf. now rewrite (keys_entries (kv :: l)).
Qed.

(** *** The decoder never runs out of fuel *)

Lemma skip_ws_length (s : str) : (List.length (skip_ws s) <= List.length s)%nat.
Proof.
  induction s as [|c s IH]; simpl; [lia|].
  destruct (is_ws c); simpl; lia.
Qed.

Lemma push_inv (c : N) (x : option (str * str)) (k r : str) :
  push c x = Some (k, r) -> exists k', x = Some (k', r).
Proof. destruct x as [[k' r']|]; simpl; [intros [= _ <-]; eauto | discriminate]. Qed.

Lemma scanstring_length_le (n : nat) :
  forall s k r, (List.length s <= n)%nat ->
                scanstring s = Some (k, r) ->
                (List.length r < List.length s)%nat.
Proof.
  induction n as [|n IH]; intros s k r Hlen H.
  - destruct s; [discriminate | simpl in Hlen; lia].
  - destruct s as [|c s]; [discriminate|]. simpl in H.
    repeat match type of H with
           | (if ?b then _ else _) = _ => destruct b
           | match ?l with [] => _ | _ :: _ => _ end = _ =>
               destruct l; simpl in Hlen |- *
           | match hex4_value ?a ?b ?c ?d with _ => _ end = _ =>
               destruct (hex4_value a b c d)
           | match backslash_escape ?e with _ => _ end = _ =>
               destruct (backslash_escape e)
           | None = Some _ => discriminate H
           | Some _ = Some _ => injection H as <- <-; simpl; lia
           | push _ (scanstring ?x) = Some _ =>
               apply push_inv in H as (? & H); apply IH in H;
               simpl in *; lia
           end.
Qed.

Lemma scanstring_length (s k r : str) :
  scanstring s = Some (k, r) -> (List.length r < List.length s)%nat.
Proof. now apply (@scanstring_length_le (List.length s)). Qed.

Lemma span_digits_length (s ds r : str) :
  span_digits s = (ds, r) -> (List.length r <= List.length s)%nat.
Proof.
  revert ds r. induction s as [|c s IH]; simpl; intros ds r.
  - intros [= _ <-]. simpl. lia.
  - destruct (is_digit c).
    + destruct (span_digits s) as [ds' r'] eqn:E. intros [= _ <-].
      specialize (IH _ _ eq_refl). lia.
    + intros [= _ <-]. simpl. lia.
Qed.

Lemma match_integer_length (s lex r : str) :
  match_integer s = Some (lex, r) -> (List.length r < List.length s)%nat.
Proof.
  unfold match_integer.
  assert (Hunsigned : forall sign s1,
             match s1 with
             | [] => None
             | c :: r0 =>
                 if c =? 48 then Some (sign ++ [c], r0)
                 else if is_digit c
                      then let (ds, rest) := span_digits r0 in
                           Some (sign ++ c :: ds, rest)
                      else None
             end = Some (lex, r) -> (List.length r < List.length s1)%nat).
  { intros sign [|c r0]; [discriminate|]. simpl.
    destruct (c =? 48); [intros [= _ <-]; lia|].
    destruct (is_digit c); [|discriminate].
    destruct (span_digits r0) as [ds rest] eqn:E. intros [= _ <-].
    apply span_digits_length in E. lia. }
  destruct s as [|c s]; [discriminate|].
  destruct (c =? 45); intros H;
    [apply (Hunsigned [c] s) in H | apply (Hunsigned [] (c :: s)) in H];
    simpl in *; lia.
Qed.

Lemma match_frac_length (s lex r : str) :
  match_frac s = Some (lex, r) -> (List.length r <= List.length s)%nat.
Proof.
  destruct s as [|c s]; [discriminate|]. simpl.
  destruct (c =? 46); [|discriminate].
  destruct (span_digits s) as [[|d ds] rest] eqn:E; [discriminate|].
  intros [= _ <-]. apply span_digits_length in E. lia.
Qed.

Lemma match_exp_length (s lex r : str) :
  match_exp s = Some (lex, r) -> (List.length r <= List.length s)%nat.
Proof.
  destruct s as [|c s]; [discriminate|]. simpl.
  destruct ((c =? 101) || (c =? 69)); [|discriminate].
  assert (Hsign : forall sign r1,
             (List.length r1 <= List.length s)%nat ->
             match span_digits r1 with
             | ([], _) => None
             | (ds, rest) => Some (c :: sign ++ ds, rest)
             end = Some (lex, r) -> (List.length r <= S (List.length s))%nat).
  { intros sign r1 Hr1.
    destruct (span_digits r1) as [[|d ds] rest] eqn:E; [discriminate|].
    intros [= _ <-]. apply span_digits_length in E. lia. }
  destruct s as [|x s']; [apply Hsign; simpl; lia|].
  destruct ((x =? 43) || (x =? 45)); apply Hsign; simpl; lia.
Qed.

Lemma match_number_length (s r : str) (v : value) :
  match_number s = Some (v, r) -> (List.length r < List.length s)%nat.
Proof.
  unfold match_number.
  destruct (match_integer s) as [[lex r1]|] eqn:Ei; [|discriminate].
  apply match_integer_length in Ei.
  destruct (match_frac r1) as [[f r2]|] eqn:Ef.
  - apply match_frac_length in Ef.
    destruct (match_exp r2) as [[e r3]|] eqn:Ee.
    + apply match_exp_length in Ee.
      destruct f, e; intros [= _ <-]; lia.
    + destruct f; intros [= _ <-]; lia.
  - destruct (match_exp r1) as [[e r3]|] eqn:Ee.
    + apply match_exp_length in Ee. destruct e; intros [= _ <-]; lia.
    + intros [= _ <-]. lia.
Qed.

Lemma strip_prefix_length (p s r : str) :
  strip_prefix p s = Some r ->
  (List.length s = List.length p + List.length r)%nat.
Proof.
  revert s. induction p as [|c p IH]; intros s; simpl.
  - now intros [= <-].
  - destruct s as [|c' s]; [discriminate|].
    destruct (c =? c'); [|discriminate]. intros H. apply IH in H. simpl. lia.
Qed.

Lemma scan_constant_length (s r : str) (v : value) :
  scan_constant s = Some (v, r) -> (List.length r < List.length s)%nat.
Proof.
  unfold scan_constant.
  repeat match goal with
         | |- match strip_prefix ?p s with _ => _ end = _ -> _ =>
             let E := fresh "E" in
             destruct (strip_prefix p s) eqn:E;
             [apply strip_prefix_length in E; simpl in E;
              intros [= _ <-]; lia|]
         | |- match match_number s with _ => _ end = _ -> _ =>
             let E := fresh "E" in
             destruct (match_number s) as [[? ?]|] eqn:E;
             [apply match_number_length in E; intros [= _ <-]; lia|]
         end.
  discriminate.
Qed.

Lemma skip_ws_cons (s s' : str) (c : N) :
  skip_ws s = c :: s' -> (List.length s' < List.length s)%nat.
Proof.
  intros H. pose proof (skip_ws_length s) as Hle. rewrite H in Hle.
  simpl in Hle. lia.
Qed.

Lemma decoder_consumes (fuel : nat) :
  (forall s, (2 * List.length s < fuel)%nat ->
             consumes true s (scan_once fuel s)) /\
  (forall s pairs, (2 * List.length s + 2 <= fuel)%nat ->
                   consumes false s (object_loop fuel s pairs)) /\
  (forall s values, (2 * List.length s + 2 <= fuel)%nat ->
                    consumes false s (array_loop fuel s values)).
Proof.
  induction fuel as [|fuel (IHscan & IHobj & IHarr)].
  - repeat split; intros; lia.
  - repeat split.
    + intros [|c r] Hfuel; [exact I|]. cbn [scan_once].
      cbn [List.length] in Hfuel.
      destruct (c =? 34).
      { destruct (scanstring r) as [[text rest]|] eqn:E; [|exact I].
        apply scanstring_length in E. simpl. lia. }
      destruct (c =? 123).
      { destruct (skip_ws r) as [|c1 r1] eqn:E; [exact I|].
        apply skip_ws_cons in E.
        destruct (c1 =? 125); [simpl; lia|].
        destruct (c1 =? 34); [|exact I].
        specialize (IHobj r1 [] ltac:(lia)).
        destruct (object_loop fuel r1 []); simpl in *; try tauto. lia. }
      destruct (c =? 91).
      { destruct (skip_ws r) as [|c1 r1] eqn:E; [exact I|].
        pose proof (skip_ws_length r) as Hle. rewrite E in Hle.
        destruct (c1 =? 93); [simpl in *; lia|].
        specialize (IHarr (c1 :: r1) [] ltac:(lia)).
        destruct (array_loop fuel (c1 :: r1) []); simpl in *; try tauto. lia. }
      destruct (scan_constant (c :: r)) as [[v rest]|] eqn:E; [|exact I].
      apply scan_constant_length in E. exact E.
    + intros s pairs Hfuel. rewrite object_loop_eq.
      destruct (scanstring s) as [[key s1]|] eqn:Ekey; [|exact I].
      apply scanstring_length in Ekey.
      destruct (skip_ws s1) as [|c s2] eqn:E1; [exact I|].
      apply skip_ws_cons in E1.
      destruct (c =? 58); [|exact I].
      pose proof (skip_ws_length s2) as Hle2.
      specialize (IHscan (skip_ws s2) ltac:(lia)).
      destruct (scan_once fuel (skip_ws s2)) as [v s3| |]; simpl in IHscan;
        [|exact I|contradiction].
      destruct (skip_ws s3) as [|c3 s4] eqn:E3; [exact I|].
      apply skip_ws_cons in E3.
      destruct (c3 =? 125); [simpl; lia|].
      destruct (c3 =? 44); [|exact I].
      destruct (skip_ws s4) as [|c5 s5] eqn:E5; [exact I|].
      apply skip_ws_cons in E5.
      destruct (c5 =? 34); [|exact I].
      specialize (IHobj s5 (pairs ++ [(key, v)]) ltac:(lia)).
      destruct (object_loop fuel s5 (pairs ++ [(key, v)])); simpl in *;
        try tauto. lia.
    + intros s values Hfuel. cbn [array_loop].
      specialize (IHscan s ltac:(lia)).
      destruct (scan_once fuel s) as [v s1| |]; simpl in IHscan;
        [|exact I|contradiction].
      destruct (skip_ws s1) as [|c s2] eqn:E1; [exact I|].
      apply skip_ws_cons in E1.
      destruct (c =? 93); [simpl; lia|].
      destruct (c =? 44); [|exact I].
      pose proof (skip_ws_length s2) as Hle2.
      specialize (IHarr (skip_ws s2) (values ++ [v]) ltac:(lia)).
      destruct (array_loop fuel (skip_ws s2) (values ++ [v])); simpl in *;
        try tauto. lia.
Qed.

(** The bound that [loads] gives the decoder is never reached. *)
Lemma loads_not_too_deep (s : str) : loads s <> TooDeep.
Proof.
  unfold loads. destruct (starts_with_bom s); [discriminate|].
  pose proof (skip_ws_length s) as Hle.
  destruct (decoder_consumes (S (2 * List.length s))) as (Hscan & _ & _).
  specialize (Hscan (skip_ws s) ltac:(lia)).
  destruct (scan_once (S (2 * List.length s)) (skip_ws s)) as [v rest| |];
    simpl in Hscan; [|discriminate|contradiction].
  destruct (skip_ws rest); discriminate.
Qed.
End JsonFacts.

(** ** Text files *)

Module TextFacts.
Import Json TextIO.
Open Scope N_scope.

Lemma hex_digit_ascii (d : N) : d < 16 -> plain_ascii (hex_digit d).
Proof.
  intros Hd. unfold hex_digit, plain_ascii.
  destruct (N.ltb_spec d 10); lia.
Qed.

Lemma unicode_escape_ascii (n : N) : Forall plain_ascii (unicode_escape n).
Proof.
  unfold unicode_escape, hex4.
  repeat constructor; try (unfold plain_ascii; lia);
    apply hex_digit_ascii; apply N.mod_lt; discriminate.
Qed.

Lemma escape_char_ascii (c : N) : Forall plain_ascii (escape_char c).
Proof.
  unfold escape_char.
  repeat match goal with
         | |- context [if ?b =? ?k then _ else _] =>
             destruct (N.eqb_spec b k);
             [repeat constructor; unfold plain_ascii; lia|]
         end.
  destruct ((32 <=? c) && (c <=? 126)) eqn:Hprint.
  - apply andb_true_iff in Hprint as [Hlo Hhi]. apply N.leb_le in Hlo, Hhi.
    repeat constructor; unfold plain_ascii; lia.
  - destruct (c <? 0x10000).
    + apply unicode_escape_ascii.
    + apply Forall_app; split; apply unicode_escape_ascii.
Qed.

Lemma flat_map_ascii (s : str) : Forall plain_ascii (flat_map escape_char s).
Proof.
  induction s as [|c s IH]; simpl; [constructor|].
  apply Forall_app; split; [apply escape_char_ascii | exact IH].
Qed.

Lemma int_repr_ascii (z : Z) : Forall plain_ascii (int_repr z).
Proof.
  unfold int_repr. apply Forall_app; split.
  - destruct (z <? 0)%Z; repeat constructor; unfold plain_ascii; lia.
  - eapply Forall_impl; [|apply JsonFacts.uint_digits_all].
    intros c Hc. apply JsonFacts.is_digit_range in Hc. unfold plain_ascii. lia.
Qed.

Lemma encode_item_ascii (kv : str * Z) : Forall plain_ascii (encode_item kv).
Proof.
  unfold encode_item, encode_basestring_ascii, key_separator.
  repeat first [ apply flat_map_ascii | apply int_repr_ascii
               | apply Forall_nil | apply Forall_cons
               | apply Forall_app; split ];
    unfold plain_ascii; lia.
Qed.

Lemma join_ascii (sep : str) (parts : list str) :
  Forall plain_ascii sep -> Forall (Forall plain_ascii) parts ->
  Forall plain_ascii (join sep parts).
Proof.
  intros Hsep Hparts. induction Hparts as [|p ps Hp Hps IH]; [constructor|].
  cbn [join]. destruct ps as [|p' ps']; [assumption|].
  apply Forall_app; split; [assumption|].
  apply Forall_app; split; assumption.
Qed.

Lemma spaces_ascii (n : nat) : Forall plain_ascii (repeat 32 n).
Proof. induction n; simpl; constructor; [unfold plain_ascii; lia | assumption]. Qed.

Lemma dumps_ascii (data : inventory) (indent : nat) :
  Forall plain_ascii (dumps data indent).
Proof.
  unfold dumps. destruct data as [|kv l].
  - repeat constructor; unfold plain_ascii; lia.
  - assert (Hnl : Forall plain_ascii (10 :: repeat 32 indent))
      by (constructor; [unfold plain_ascii; lia | apply spaces_ascii]).
    repeat (apply Forall_app; split); try assumption;
      try (repeat constructor; unfold plain_ascii; lia).
    apply join_ascii.
    + apply Forall_app; split; [|assumption].
      repeat constructor; unfold plain_ascii; lia.
    + apply Forall_forall. intros p Hp. apply in_map_iff in Hp as (x & <- & _).
      apply encode_item_ascii.
Qed.

Lemma encode_codes_ascii (s : str) :
  Forall plain_ascii s -> Utf8.encode_codes s = Some s.
Proof.
  induction 1 as [|c s [Hc _] _ IH]; [reflexivity|].
  cbn [Utf8.encode_codes]. unfold Utf8.encode_char.
  apply N.ltb_lt in Hc. now rewrite Hc, IH.
Qed.

Lemma decode_codes_ascii (s : str) :
  Forall plain_ascii s -> Utf8.decode_codes s = Some s.
Proof.
  induction 1 as [|c s [Hc _] _ IH]; [reflexivity|].
  cbn [Utf8.decode_codes]. apply N.ltb_lt in Hc. now rewrite Hc, IH.
Qed.

Lemma to_N_byte_of (c : N) : c < 256 -> Byte.to_N (Utf8.byte_of c) = c.
Proof.
  intros Hc. unfold Utf8.byte_of.
  destruct (Byte.of_N c) as [b|] eqn:E.
  - now apply Byte.to_of_N.
  - apply Byte.of_N_None_iff in E. lia.
Qed.

Lemma bytes_ascii (s : str) :
  Forall plain_ascii s -> map Byte.to_N (map Utf8.byte_of s) = s.
Proof.
  induction 1 as [|c s [Hc _] _ IH]; [reflexivity|].
  cbn [map]. rewrite IH, to_N_byte_of by lia. reflexivity.
Qed.

Lemma universal_newlines_ascii (s : str) :
  Forall plain_ascii s -> TextIO.universal_newlines s = s.
Proof.
  induction 1 as [|c s [_ Hc] _ IH]; [reflexivity|].
  cbn [TextIO.universal_newlines]. apply N.eqb_neq in Hc. now rewrite Hc, IH.
Qed.

(** Text made of such characters is read back as written. *)
Lemma read_after_write (fs : TextIO.filesystem) (path text : str) :
  Forall plain_ascii text ->
  exists fs',
    TextIO.write_text fs path text = Return fs' /\
    TextIO.read_text fs' path = Return text.
Proof.
  intros Htext. unfold TextIO.write_text, Utf8.encode.
  rewrite encode_codes_ascii by assumption. cbn [option_map].
  eexists. split; [reflexivity|].
  unfold TextIO.read_text, TextIO.write_file. rewrite str_eqb_refl.
  unfold Utf8.decode. rewrite bytes_ascii, decode_codes_ascii by assumption.
  now rewrite universal_newlines_ascii.
Qed.
End TextFacts.

(** ** Persistence *)

Module PersistFacts.
Import TextIO Persist.

Lemma save_data_files (fs : filesystem) (data : inventory) (file : str) :
  io_result (save_data fs data file) = Return tt ->
  read_text (files (save_data fs data file)) file = Return (Json.dumps data 4).
Proof.
  unfold save_data. destruct (open_w fs file) as [fs1|e]; [|discriminate].
  destruct (@TextFacts.read_after_write fs1 file (Json.dumps data 4)
              (TextFacts.dumps_ascii data 4)) as (fs2 & Hw & Hr).
  rewrite Hw. now intros _.
Qed.

(** Saving and loading back, for any sign of the quantities. *)
Lemma save_then_load (fs : filesystem) (data : inventory) (file : str) :
  Dict.wf data ->
  Forall (fun kv => Json.plain_key (fst kv) = true) data ->
  io_result (save_data fs data file) = Return tt ->
  load_data (files (save_data fs data file)) file
  = IO (Return (value_of_inventory data)) (files (save_data fs data file))
       [(INFO, Loaded file)].
Proof.
  intros Hwf Hkeys Hsave. unfold load_data, json_load.
  rewrite (save_data_files _ _ _ Hsave).
  now rewrite JsonFacts.loads_dumps.
Qed.





End PersistFacts.

(** * Further properties *)

(** ** More on dictionaries and the inventory operations *)

Module InventoryMore.
Import Inventory Notions.
Open Scope Z_scope.

Section DictMore.
Variable V : Type.
Implicit Types (d : Dict.t V) (k : str) (v : V).

Lemma set_set d k v v' : Dict.set (Dict.set d k v) k v' = Dict.set d k v'.
Proof.
  induction d as [|[k0 v0] d IH]; simpl.
  - now rewrite str_eqb_refl.
  - destruct (str_eqb k0 k) eqn:E; simpl; rewrite E; [reflexivity|].
    now rewrite IH.
Qed.

Lemma get_default_set_same d k v dflt :
  Dict.get_default (Dict.set d k v) k dflt = v.
Proof. unfold Dict.get_default. now rewrite DictFacts.get_set_same. Qed.

Lemma set_same d k v : Dict.get d k = Some v -> Dict.set d k v = d.
Proof.
  induction d as [|[k0 v0] d IH]; simpl; [discriminate|].
  destruct (str_eqb k0 k); [now intros [= ->] | intros H; now rewrite IH].
Qed.

Lemma del_appended d k v :
  Dict.get d k = None -> Dict.del (d ++ [(k, v)]) k = d.
Proof.
  induction d as [|[k0 v0] d IH]; simpl.
  - now rewrite str_eqb_refl.
  - destruct (str_eqb k0 k); [discriminate | intros H; now rewrite IH].
Qed.

Lemma set_appends d k v :
  Dict.get d k = None -> Dict.set d k v = d ++ [(k, v)].
Proof.
  intros H. apply DictFacts.set_absent. now apply DictFacts.get_none_iff.
Qed.

Lemma keys_set_same d k v :
  Dict.get d k <> None -> Dict.keys (Dict.set d k v) = Dict.keys d.
Proof.
  intros H. apply DictFacts.keys_set_present.
  destruct (in_dec (list_eq_dec N.eq_dec) k (Dict.keys d)) as [Hin|Hnotin];
    [assumption|].
  apply DictFacts.get_none_iff in Hnotin. contradiction.
Qed.
End DictMore.

Lemma others_set (data : inventory) (k : str) (v : Z) :
  others k (Dict.set data k v) = others k data.
Proof.
  unfold others. induction data as [|[k0 v0] d IH]; simpl.
  - now rewrite str_eqb_refl.
  - destruct (str_eqb k0 k) eqn:E; simpl; rewrite E; simpl;
      [reflexivity | now rewrite IH].
Qed.

Lemma others_del (data : inventory) (k : str) :
  others k (Dict.del data k) = others k data.
Proof.
  unfold others. induction data as [|[k0 v0] d IH]; simpl; [reflexivity|].
  destruct (str_eqb k0 k) eqn:E; simpl; [reflexivity|].
  rewrite E. simpl. now rewrite IH.
Qed.





(** X3: two additions to the same item amount to one addition of the
    sum. *)
Theorem add_twice (data : inventory) (name : str) (qty1 qty2 : value)
        (n1 n2 : Z) :
  as_int qty1 = Some n1 ->
  as_int qty2 = Some n2 ->
  store (add_item (store (add_item data (VStr name) qty1)) (VStr name) qty2)
  = store (add_item data (VStr name) (VInt (n1 + n2))).
Proof.
  intros H1 H2. unfold add_item. simpl. rewrite H1, H2.
  destruct name as [|c name]; [reflexivity|]. simpl.
  rewrite get_default_set_same, set_set. f_equal. lia.
Qed.

Lemma add_twice_witness :
  store (add_item (store (add_item [] (VStr apple) (VInt 10)))
                  (VStr apple) (VBool true))
  = store (add_item [] (VStr apple) (VInt 11)).
Proof.
  apply (@add_twice [] apple (VInt 10) (VBool true) 10 1); reflexivity.
Defined.

(** X4: [add_item] and [remove_item] leave the entries of all other items
    as they were, in the same order. *)
Theorem other_entries_in_order (data : inventory) (name : str) :
  (forall qty, others name (store (add_item data (VStr name) qty))
               = others name data) /\
  (forall qty, others name (store (remove_item data name qty))
               = others name data).
Proof.
  split; intros qty.
  - unfold add_item. simpl. destruct (as_int qty) as [n|]; [|reflexivity].
    destruct name as [|c name]; [reflexivity|]. apply others_set.
  - pose proof (InventoryFacts.remove_item_cases data name qty) as Hc.
    destruct (Dict.get data name) as [stock|].
    + destruct (stock >? qty); rewrite Hc; [apply others_set | apply others_del].
    + now rewrite Hc.
Qed.

(** X5: an accepted [add_item] keeps the iteration order: the key of an
    item already present stays where it is, the key of a new item goes
    last. *)
Theorem add_item_key_order (data : inventory) (name : str) (qty : value) (n : Z) :
  name <> [] ->
  as_int qty = Some n ->
  Dict.keys (store (add_item data (VStr name) qty))
  = match Dict.get data name with
    | Some _ => Dict.keys data
    | None => Dict.keys data ++ [name]
    end.
Proof.
  intros Hname Hint. unfold add_item. simpl. rewrite Hint.
  destruct name as [|c name]; [congruence|]. simpl.
  destruct (Dict.get data (c :: name)) as [q|] eqn:E.
  - apply keys_set_same. congruence.
  - rewrite set_appends by assumption. unfold Dict.keys.
    now rewrite map_app.
Qed.

Lemma add_item_key_order_witness :
  Dict.keys (store (add_item [(apple, 10); (banana, 20)] (VStr orange) (VInt 1)))
  = [apple; banana; orange].
Proof.
  apply (@add_item_key_order [(apple, 10); (banana, 20)] orange (VInt 1) 1);
    [discriminate | reflexivity].
Defined.

(** X6: on an inventory whose quantities are all strictly positive,
    [get_qty] is 0 exactly for the items that are absent. *)
Theorem get_qty_zero_iff_absent (data : inventory) (item : str) :
  positive_stock data ->
  (result (get_qty data item) = Return 0 <-> Dict.get data item = None).
Proof.
  intros Hpos. unfold get_qty, Dict.get_default. simpl.
  destruct (Dict.get data item) as [q|] eqn:E; [|tauto].
  apply DictFacts.get_In in E. unfold positive_stock in Hpos.
  rewrite Forall_forall in Hpos. specialize (Hpos _ E). simpl in Hpos.
  split; [intros [= ->]; lia | discriminate].
Qed.

Lemma get_qty_zero_iff_absent_witness :
  result (get_qty [(apple, 7)] orange) = Return 0 <->
  Dict.get [(apple, 7)] orange = None.
Proof.
  apply (@get_qty_zero_iff_absent [(apple, 7)] orange). repeat constructor.
Defined.

Lemma filter_filter_le (data : inventory) (t t' : Z) :
  t <= t' ->
  filter (fun kv => snd kv <? t) (filter (fun kv => snd kv <? t') data)
  = filter (fun kv => snd kv <? t) data.
Proof.
  intros Hle. induction data as [|[k q] d IH]; simpl; [reflexivity|].
  destruct (q <? t') eqn:E'; simpl.
  - destruct (q <? t); now rewrite IH.
  - assert ((q <? t) = false) as ->
        by (apply Z.ltb_ge; apply Z.ltb_ge in E'; lia).
    exact IH.
Qed.

(** X7: raising the threshold of [check_low_items] only adds items: the
    items reported below a threshold are those reported below a larger
    threshold whose quantity is below the smaller one, in the same
    order. *)
Theorem check_low_items_monotone (data : inventory) (t t' : Z) (l' : list str) :
  Dict.wf data ->
  t <= t' ->
  result (check_low_items data t') = Return l' ->
  result (check_low_items data t)
  = Return (filter (fun k => Dict.get_default data k 0 <? t) l').
Proof.
  intros Hwf Hle. unfold check_low_items. simpl. intros [= <-]. f_equal.
  rewrite <- (filter_filter_le data Hle).
  apply InventoryFacts.filter_keys_wf. intros k q Hin.
  apply filter_In in Hin as [Hin _].
  unfold Dict.get_default. now rewrite (DictFacts.In_get _ _ Hwf Hin).
Qed.

Lemma check_low_items_monotone_witness :
  result (check_low_items [(apple, 2); (banana, 10); (orange, 4)] 3)
  = Return (filter
              (fun k => Dict.get_default
                          [(apple, 2); (banana, 10); (orange, 4)] k 0 <? 3)
              [apple; orange]).
Proof.
  apply (@check_low_items_monotone
           [(apple, 2); (banana, 10); (orange, 4)] 3 5 [apple; orange]).
  - repeat constructor; simpl; intuition discriminate.
  - lia.
  - reflexivity.
Defined.

(** X8: [check_low_items] reports nothing exactly when every quantity is
    at least the threshold. *)
Theorem check_low_items_empty_iff (data : inventory) (threshold : Z) :
  result (check_low_items data threshold) = Return [] <->
  Forall (fun kv => threshold <= snd kv) data.
Proof.
  unfold check_low_items. simpl. split.
  - intros [= H]. induction data as [|[k q] d IH]; [constructor|].
    simpl in H. destruct (q <? threshold) eqn:E; [discriminate|].
    constructor; [apply Z.ltb_ge in E; exact E | now apply IH].
  - intros H. f_equal. induction H as [|[k q] d Hq _ IH]; [reflexivity|].
    simpl in *. apply Z.ltb_ge in Hq. now rewrite Hq.
Qed.

(** X9: [add_item] and [remove_item] log exactly one record per call, and
    whenever that record is not at level INFO the inventory is left as it
    was. *)
Theorem one_record_per_call (data : inventory) :
  (forall item qty, exists lvl msg,
      logged (add_item data item qty) = [(lvl, msg)] /\
      (lvl <> INFO -> store (add_item data item qty) = data)) /\
  (forall item qty, exists lvl msg,
      logged (remove_item data item qty) = [(lvl, msg)] /\
      (lvl <> INFO -> store (remove_item data item qty) = data)).
Proof.
  split; intros item qty.
  - unfold add_item.
    destruct (as_str item) as [[|c name]|], (as_int qty) as [n|]; simpl;
      do 2 eexists; (split; [reflexivity|]); try reflexivity; congruence.
  - unfold remove_item, Dict.getitem.
    destruct (Dict.get data item) as [stock|]; [destruct (stock >? qty)|];
      simpl; do 2 eexists; (split; [reflexivity|]); try reflexivity;
      congruence.
Qed.
End InventoryMore.

(** ** More on the JSON encoder and decoder *)

Module JsonMore.
Import Json Notions.
Open Scope N_scope.

Lemma backslash_escape_ascii (e c : N) : backslash_escape e = Some c -> c < 128.
Proof.
  unfold backslash_escape.
  repeat match goal with
         | |- (if ?b then _ else _) = _ -> _ => destruct b
         end; intros [= <-] || discriminate; lia.
Qed.

(** A surrogate is written as one [\uXXXX] escape of its own value. *)
Lemma surrogate_escape (c : N) :
  0xD800 <= c <= 0xDFFF ->
  exists h1 h2 h3 h4,
    escape_char c = [92; 117; h1; h2; h3; h4] /\
    hex4_value h1 h2 h3 h4 = Some c.
Proof.
  intros Hc. assert (Hcp : c < 0x110000) by lia.
  destruct (JsonFacts.escape_char_shape Hcp)
    as [e _ Hesc | _ _ _ Hlt | h1 h2 h3 h4 Hval _
        | h1 h2 h3 h4 g1 g2 g3 g4 hi lo _ _ _ _ _ Hsup].
  - apply backslash_escape_ascii in Hesc. lia.
  - lia.
  - eauto 6.
  - lia.
Qed.

Lemma scanstring_step (c : N) (tail : str) :
  c < 0x110000 ->
  (is_high_surrogate c = true -> no_low_escape tail) ->
  scanstring (escape_char c ++ tail) = push c (scanstring tail).
Proof.
  intros Hc Hnext.
  destruct (JsonFacts.escape_char_shape Hc)
    as [e He Hesc | H34 H92 Hctl _ | h1 h2 h3 h4 Hval _
        | h1 h2 h3 h4 g1 g2 g3 g4 hi lo Hval Hhi Hval' Hlo Hjoin _].
  - now apply JsonFacts.scanstring_simple.
  - now apply JsonFacts.scanstring_plain.
  - now apply JsonFacts.scanstring_unicode.
  - rewrite <- Hjoin. now apply JsonFacts.scanstring_pair.
Qed.

Lemma surrogate_ranges (c : N) :
  (is_high_surrogate c = true -> 0xD800 <= c <= 0xDBFF) /\
  (is_low_surrogate c = true -> 0xDC00 <= c <= 0xDFFF).
Proof.
  unfold is_high_surrogate, is_low_surrogate.
  split; intros H; apply andb_true_iff in H as [H1 H2];
    apply N.leb_le in H1, H2; lia.
Qed.

(** Reading back an escaped string gives the string with its surrogate
    pairs joined. *)
Lemma scanstring_escaped_any (n : nat) :
  forall s rest,
    (List.length s <= n)%nat ->
    forallb is_codepoint s = true ->
    scanstring (flat_map escape_char s ++ 34 :: rest) = Some (join_pairs s, rest).
Proof.
  induction n as [|n IH]; intros s rest Hlen Hcp.
  - destruct s; [reflexivity | simpl in Hlen; lia].
  - destruct s as [|c r]; [reflexivity|].
    simpl in Hcp, Hlen. apply andb_true_iff in Hcp as [Hc Hcp].
    apply N.ltb_lt in Hc.
    change (flat_map escape_char (c :: r))
      with (escape_char c ++ flat_map escape_char r).
    rewrite <- List.app_assoc.
    destruct r as [|c' r'].
    + rewrite scanstring_step;
        [reflexivity | assumption | intros _; apply JsonFacts.quote_no_low_escape].
    + simpl in Hcp. apply andb_true_iff in Hcp as [Hc' Hcp'].
      apply N.ltb_lt in Hc'.
      cbn [join_pairs].
      destruct (is_high_surrogate c) eqn:Hhi;
        [destruct (is_low_surrogate c') eqn:Hlo|]; cbn [andb].
      * destruct (@surrogate_escape c) as (h1 & h2 & h3 & h4 & Ec & Hvc).
        { apply surrogate_ranges in Hhi. lia. }
        destruct (@surrogate_escape c') as (g1 & g2 & g3 & g4 & Ec' & Hvc').
        { apply surrogate_ranges in Hlo. lia. }
        change (flat_map escape_char (c' :: r'))
          with (escape_char c' ++ flat_map escape_char r').
        rewrite Ec, Ec'. rewrite <- List.app_assoc. cbn [app].
        rewrite (@JsonFacts.scanstring_pair h1 h2 h3 h4 g1 g2 g3 g4 c c' _ Hvc Hhi Hvc' Hlo).
        rewrite IH; [reflexivity | simpl in Hlen; lia | assumption].
      * rewrite scanstring_step; [| assumption |].
        -- rewrite IH; [reflexivity | simpl in *; lia |].
           simpl. apply andb_true_iff. split; [now apply N.ltb_lt | assumption].
        -- intros _.
           change (flat_map escape_char (c' :: r'))
             with (escape_char c' ++ flat_map escape_char r').
           rewrite <- List.app_assoc.
           apply JsonFacts.shape_no_low_escape with (c := c'); [|assumption].
           now apply JsonFacts.escape_char_shape.
      * rewrite scanstring_step; [| assumption | congruence].
        rewrite IH; [reflexivity | simpl in *; lia |].
        simpl. apply andb_true_iff. split; [now apply N.ltb_lt | assumption].
Qed.

Lemma join_pairs_plain (s : str) : no_surrogate_pair s = true -> join_pairs s = s.
Proof.
  induction s as [|c r IH]; [reflexivity|]. cbn [no_surrogate_pair join_pairs].
  destruct r as [|c' r'].
  - reflexivity.
  - intros H. apply andb_true_iff in H as [Hpair Hrest].
    apply negb_true_iff in Hpair. rewrite Hpair. now rewrite IH.
Qed.

Lemma object_loop_items_any (indent : nat) (l : list (str * Z)) :
  forall (kv : str * Z) (fuel : nat) (acc : list (str * value)) (rest : str),
    (List.length l + 2 <= fuel)%nat ->
    Forall (fun kv => forallb is_codepoint (fst kv) = true) (kv :: l) ->
    object_loop fuel (item_tail kv ++ more indent l ++ 10 :: 125 :: rest) acc
    = Parsed (VDict (Dict.of_pairs (acc ++ map reloaded_entry (kv :: l)))) rest.
Proof.
  induction l as [|kv' l IH]; intros [k v] fuel acc rest Hfuel Hkeys;
    (destruct fuel as [|[|fuel]]; [simpl in Hfuel; lia.. |]);
    inversion Hkeys as [|? ? Hk Hkeys']; subst;
    rewrite JsonFacts.object_loop_eq; unfold item_tail; cbn [fst snd];
    rewrite <- List.app_assoc; cbn [app];
    rewrite (@scanstring_escaped_any (List.length k)) by (auto; lia);
    rewrite (@JsonFacts.skip_ws_stop 58) by reflexivity;
    change (58 =? 58) with true; cbn iota;
    rewrite (@JsonFacts.skip_ws_ws 32) by reflexivity;
    rewrite JsonFacts.skip_ws_repr, JsonFacts.scan_once_repr
      by apply JsonFacts.ends_number_more.
  - reflexivity.
  - cbn [more app]. rewrite <- List.app_assoc.
    rewrite (@JsonFacts.skip_ws_stop 44) by reflexivity.
    change (44 =? 125) with false. change (44 =? 44) with true. cbn iota.
    rewrite (@JsonFacts.skip_ws_ws 10) by reflexivity.
    rewrite JsonFacts.skip_ws_spaces, JsonFacts.join_items. cbn [app].
    rewrite (@JsonFacts.skip_ws_stop 34) by reflexivity.
    change (34 =? 34) with true. cbn iota.
    rewrite <- List.app_assoc, IH; [| simpl in *; lia | assumption].
    now rewrite <- List.app_assoc.
Qed.

(** Whatever the keys, the decoder accepts what the encoder wrote. *)
Lemma loads_dumps_any (data : inventory) (indent : nat) :
  Forall (fun kv => forallb is_codepoint (fst kv) = true) data ->
  loads (dumps data indent) = Value (reloaded data).
Proof.
  intros Hkeys. destruct data as [|kv l]; [reflexivity|].
  unfold loads, dumps, reloaded.
  set (sep := item_separator ++ 10 :: repeat 32 indent).
  set (text := _ ++ _).
  assert (Htext : text = 123 :: 10 :: repeat 32 indent
                         ++ 34 :: item_tail kv ++ more indent l ++ [10; 125]).
  { subst text sep. unfold item_separator. cbn [app].
    rewrite JsonFacts.join_items. cbn [app]. now rewrite <- List.app_assoc. }
  assert (Hlen : (List.length l + 2 <= 2 * List.length text)%nat).
  { subst text. cbn [app List.length]. rewrite !length_app.
    pose proof (JsonFacts.length_join_items sep (kv :: l)) as H.
    cbn [List.length] in H. lia. }
  clearbody text sep. subst text.
  cbn [starts_with_bom]. change (123 =? 0xFEFF) with false. cbn iota.
  rewrite (@JsonFacts.skip_ws_stop 123) by reflexivity.
  cbn [scan_once]. change (123 =? 34) with false. change (123 =? 123) with true.
  cbn iota. rewrite (@JsonFacts.skip_ws_ws 10) by reflexivity.
  rewrite JsonFacts.skip_ws_spaces, (@JsonFacts.skip_ws_stop 34) by reflexivity.
  change (34 =? 125) with false. change (34 =? 34) with true. cbn iota.
  rewrite object_loop_items_any by assumption. reflexivity.
Qed.
End JsonMore.

(** ** More on persistence *)

Module PersistMore.
Import TextIO Persist Notions.

Lemma write_dumps (fs : filesystem) (data : inventory) (file : str) :
  write_text fs file (Json.dumps data 4)
  = Return (write_file fs file (map Utf8.byte_of (Json.dumps data 4))).
Proof.
  unfold write_text, Utf8.encode.
  now rewrite (TextFacts.encode_codes_ascii (TextFacts.dumps_ascii data 4)).
Qed.








End PersistMore.

(** ** The console report: properties *)

Module ReportFacts.
Import Report.
Open Scope N_scope.

Lemma split_first (x : N) (l1 l2 t1 t2 : str) :
  ~ In x l1 -> ~ In x l2 ->
  l1 ++ x :: t1 = l2 ++ x :: t2 -> l1 = l2 /\ t1 = t2.
Proof.
  revert l2. induction l1 as [|a l1 IH]; intros [|b l2] H1 H2; simpl.
  - now intros [= ->].
  - intros [= <- _]. exfalso. apply H2. now left.
  - intros [= -> _]. exfalso. apply H1. now left.
  - intros [= <- H]. apply IH in H as [-> ->]; [tauto | |];
      intros Hin; [apply H1 | apply H2]; now right.
Qed.

Lemma int_repr_chars (z : Z) :
  Forall (fun c => c = 45 \/ Json.is_digit c = true) (Json.int_repr z).
Proof.
  unfold Json.int_repr. apply Forall_app. split.
  - destruct (z <? 0)%Z; repeat constructor.
  - eapply Forall_impl; [|apply JsonFacts.uint_digits_all]. simpl. tauto.
Qed.

Lemma int_repr_without (x : N) (z : Z) :
  x <> 45 -> Json.is_digit x = false -> ~ In x (Json.int_repr z).
Proof.
  intros H45 Hdig Hin. pose proof (int_repr_chars z) as Hall.
  rewrite Forall_forall in Hall. destruct (Hall _ Hin); congruence.
Qed.

Lemma int_repr_inj (z z' : Z) : Json.int_repr z = Json.int_repr z' -> z = z'.
Proof.
  intros H. rewrite <- (JsonFacts.parse_int_repr z), <- (JsonFacts.parse_int_repr z').
  now rewrite H.
Qed.

Lemma int_repr_last (z : Z) :
  exists body d, Json.int_repr z = body ++ [d] /\ Json.is_digit d = true.
Proof.
  pose proof (JsonFacts.uint_digits_all (N.to_uint (Z.abs_N z))) as Hall.
  destruct (JsonFacts.digits_head (Z.abs_N z)) as (c & ds & E & _).
  destruct (@exists_last _ (Json.uint_digits (N.to_uint (Z.abs_N z))))
    as (body & d & Hlast); [rewrite E; discriminate|].
  rewrite Hlast in Hall. apply Forall_app in Hall as [_ Hd].
  inversion Hd; subst. unfold Json.int_repr. rewrite Hlast.
  exists ((if (z <? 0)%Z then [45] else []) ++ body), d.
  split; [now rewrite List.app_assoc | assumption].
Qed.

Lemma format_item_inj (kv kv' : str * Z) :
  format_item kv = format_item kv' -> kv = kv'.
Proof.
  destruct kv as [name q], kv' as [name' q']. unfold format_item. simpl.
  change (str_of " -> ") with ([32; 45; 62] ++ [32]).
  intros H. apply (f_equal (@rev N)) in H.
  rewrite !rev_app_distr in H. simpl in H. rewrite <- !List.app_assoc in H.
  simpl in H.
  apply split_first in H as [Hr Hn].
  - apply (f_equal (@rev N)) in Hr. rewrite !rev_involutive in Hr.
    apply int_repr_inj in Hr. injection Hn as Hn.
    apply (f_equal (@rev N)) in Hn. rewrite !rev_involutive in Hn.
    now subst.
  - rewrite <- in_rev. now apply int_repr_without.
  - rewrite <- in_rev. now apply int_repr_without.
Qed.

Lemma format_item_no_newline (kv : str * Z) :
  ~ In 10 (fst kv) -> ~ In 10 (format_item kv).
Proof.
  intros Hname Hin. unfold format_item in Hin.
  apply in_app_or in Hin as [Hin|Hin]; [contradiction|].
  apply in_app_or in Hin as [Hin|Hin].
  - simpl in Hin. intuition discriminate.
  - revert Hin. now apply int_repr_without.
Qed.

Lemma lines_inj (d d' : inventory) :
  Forall (fun kv => ~ In 10 (fst kv)) d ->
  Forall (fun kv => ~ In 10 (fst kv)) d' ->
  flat_map (fun kv => print (format_item kv)) d
  = flat_map (fun kv => print (format_item kv)) d' ->
  d = d'.
Proof.
  intros Hd. revert d'. induction Hd as [|kv d Hkv _ IH]; intros d' Hd' H.
  - destruct d' as [|kv' d']; [reflexivity|].
    simpl in H. unfold print in H. destruct (format_item kv'); discriminate.
  - destruct Hd' as [|kv' d' Hkv' Hd'].
    + simpl in H. unfold print in H. destruct (format_item kv); discriminate.
    + simpl in H. unfold print in H. rewrite <- !List.app_assoc in H.
      simpl in H. apply split_first in H as [Hline Hrest];
        try now apply format_item_no_newline.
      apply format_item_inj in Hline. apply IH in Hrest; [|assumption].
      now subst.
Qed.

Lemma empty_line_is_no_item (kv : str * Z) :
  format_item kv <> str_of "Inventory is empty.".
Proof.
  intros H. destruct (int_repr_last (snd kv)) as (body & d & E & Hd).
  unfold format_item in H. rewrite E in H.
  change (str_of "Inventory is empty.")
    with (str_of "Inventory is empty" ++ [46]) in H.
  rewrite !List.app_assoc in H. apply app_inj_tail in H as [_ ->].
  discriminate Hd.
Qed.


End ReportFacts.
